(** * The duplex voice session of the studio (components/VoiceAssistant)

    A shallow embedding of the voice-conversation component: the capture
    callback that converts microphone samples to 16-bit PCM, the inbound
    message handler (transcript accumulators, playback scheduling cursor,
    interruption flush), [stopSession] and [startSession], together with the
    authorization gate of [generateVideo] (components/VideoStudio) and the
    key handling of [App].

    Conventions.
    - A JavaScript [number] holding a time in seconds or an audio sample is
      a rational ([Q]); every finite float is one, and the scaling by 32768
      in the capture callback is exact on floats.  Sums of times are exact
      here, the rounding of float addition is not modelled.  Equality of
      such values is [Qeq] ([==]).
    - React state and refs are fields of explicit records that are threaded
      through the handlers; a state setter is an update of the field.
    - Browser objects that the component mutates through a reference (audio
      contexts, buffer source nodes) live in stores indexed by allocation
      order; refs hold indices.
    - Calls that leave the component (microphone acquisition, connection,
      release calls, key selector) are appended to a log. *)

From Stdlib Require Import QArith Qround ZArith Lia String Ascii List.
From Stdlib Require Import Qabs.
From stdpp Require Import base gmap sets list strings.
Import ListNotations.

Local Open Scope Z_scope.

(** ** Frame codec, capture direction *)

Module Codec.

(** ECMAScript [truncate]: the integer part of a finite number, rounding
    toward zero. *)
Definition truncate (x : Q) : Z := Z.quot (Qnum x) (Z.pos (Qden x)).

(** ECMAScript [ToInt16] on an integer: reduce modulo 2^16, then read the
    result as a signed 16-bit value.  This is the conversion performed by
    a store into an [Int16Array]. *)
Definition ToInt16 (n : Z) : Z :=
  let int16bit := n mod 65536 in
  if 32768 <=? int16bit then int16bit - 65536 else int16bit.

(** [int16[i] = inputData[i] * 32768;] *)
Definition sampleToPCM16 (x : Q) : Z := ToInt16 (truncate (x * 32768)%Q).

(** The loop of [scriptProcessor.onaudioprocess] filling [int16]. *)
Definition floatSamplesToPCM16 (inputData : list Q) : list Z :=
  map sampleToPCM16 inputData.

(** [new Uint8Array(int16.buffer)]: two bytes per sample, low byte first. *)
Definition int16Bytes (v : Z) : list Z :=
  let u := v mod 65536 in [u mod 256; u / 256].

Definition pcm16Bytes (int16 : list Z) : list Z := flat_map int16Bytes int16.

(** The conversion as the specification words it: out-of-range values
    map to the nearest 16-bit extreme. *)
Definition spec_clampToPCM16 (x : Q) : Z :=
  Z.max (-32768) (Z.min 32767 (truncate (x * 32768)%Q)).

End Codec.

(** ** Frame codec, playback direction (audio-utils) *)

Module AudioUtils.

(** The Web Audio [AudioBuffer] of one channel: its samples and its sample
    rate.  [length] is the number of sample frames. *)
Record AudioBuffer := mkAudioBuffer {
  channelData : list Q;
  sampleRate : positive
}.

(** [AudioBuffer.duration]: length divided by sample rate, in seconds. *)
Definition duration (b : AudioBuffer) : Q :=
  (inject_Z (Z.of_nat (length (channelData b))) / inject_Z (Z.pos (sampleRate b)))%Q.

(** Value of a character of the base64 alphabet. *)
Definition sextet (c : ascii) : option Z :=
  let n := Z.of_nat (nat_of_ascii c) in
  if (65 <=? n) && (n <=? 90) then Some (n - 65)
  else if (97 <=? n) && (n <=? 122) then Some (n - 71)
  else if (48 <=? n) && (n <=? 57) then Some (n + 4)
  else if n =? 43 then Some 62
  else if n =? 47 then Some 63
  else None.

Fixpoint sextetsToBytes (l : list Z) : option (list Z) :=
  match l with
  | [] => Some []
  | a :: b :: c :: d :: rest =>
      match sextetsToBytes rest with
      | Some bs =>
          Some (a * 4 + b / 16 :: (b mod 16) * 16 + c / 4 :: (c mod 4) * 64 + d :: bs)
      | None => None
      end
  | [a; b; c] => Some [a * 4 + b / 16; (b mod 16) * 16 + c / 4]
  | [a; b] => Some [a * 4 + b / 16]
  | [_] => None
  end.

Definition isPad (c : ascii) : bool := Ascii.eqb c "="%char.

(** Removes at most two trailing padding characters of a string whose
    length is a multiple of four. *)
Definition stripPadding (cs : list ascii) : list ascii :=
  if (Nat.modulo (length cs) 4 =? 0)%nat then
    match rev cs with
    | p :: q :: r => if isPad p then (if isPad q then rev r else rev (q :: r)) else cs
    | _ => cs
    end
  else cs.

(** Modelled from the spec: [decode] of the module audio-utils, which the
    component imports and whose source is not among the files.  The spec
    gives the inbound framing as "base64-equivalent"; this is the standard
    alphabet with optional padding, and [None] stands for the exception
    raised on a string that is not base64. *)
Definition decode (base64 : string) : option (list Z) :=
  match mapM sextet (stripPadding (list_ascii_of_string base64)) with
  | Some sextets => sextetsToBytes sextets
  | None => None
  end.

(** Signed value of the 16-bit little-endian pair [lo], [hi]. *)
Definition int16OfBytes (lo hi : Z) : Z :=
  let u := lo + 256 * hi in if 32768 <=? u then u - 65536 else u.

Fixpoint pcm16ToFloatSamples (data : list Z) : option (list Q) :=
  match data with
  | [] => Some []
  | lo :: hi :: rest =>
      match pcm16ToFloatSamples rest with
      | Some samples => Some ((inject_Z (int16OfBytes lo hi) / 32768)%Q :: samples)
      | None => None
      end
  | [_] => None
  end.

(** Modelled from the spec: [decodeAudioData] of audio-utils (missing like
    [decode]) for one channel: 16-bit little-endian PCM to float samples,
    rejecting "buffers whose byte length is not a multiple of 2 (signals
    MalformedFrame)"; [None] is that rejection. *)
Definition decodeAudioData (data : list Z) (rate : positive) : option AudioBuffer :=
  match pcm16ToFloatSamples data with
  | Some samples => Some (mkAudioBuffer samples rate)
  | None => None
  end.

End AudioUtils.

(** ** Data of the voice component *)

Import AudioUtils.

(** [TranscriptionItem] of types.ts. *)
Inductive Role := user | model.

Record TranscriptionItem := mkItem {
  role : Role;
  text : string
}.

(** An [AudioBufferSourceNode] after [start(startTime)]; [stopped] records
    a call of [stop()]. *)
Record SourceNode := mkSource {
  buffer : AudioBuffer;
  startTime : Q;
  stopped : bool
}.

(** Control state of an [AudioContext]. *)
Inductive ContextState := Running | ContextClosed.

(** Result of [AudioContext.close()]: the promise resolves on a running
    context and rejects with InvalidStateError on one that is closed. *)
Inductive CloseResult := CloseResolved | InvalidStateError.

Inductive ConnectionState := Open | ConnectionClosed.

(** Calls that leave the component, in the order they are made. *)
Inductive Effect :=
  | GetUserMedia (granted : bool)
  | NewAudioContext (ctx : nat) (rate : positive)
  | LiveConnect
  | CaptureGraphConnected (ctx : nat)
  | SessionClose (conn : nat)
  | ContextClose (ctx : nat) (result : CloseResult)
  | OpenSelectKey
  | GenerateVideos.

(** React state of [VoiceAssistant]. *)
Record Ui := mkUi {
  isActive : bool;
  isConnecting : bool;
  error : option string;
  transcription : list TranscriptionItem
}.

(** The two accumulator refs. *)
Record Aggregator := mkAggregator {
  currentInputTranscription : string;
  currentOutputTranscription : string
}.

(** The playback refs, and the source nodes created so far (a node is
    named by its position in [nodes]). *)
Record Scheduler := mkScheduler {
  nextStartTimeRef : Q;
  sourcesRef : gset nat;
  nodes : list SourceNode
}.

(** The resource refs; a ref holds the index of its object, [None] is
    [null]. *)
Record Refs := mkRefs {
  sessionRef : option nat;
  audioContextRef : option nat;
  outputAudioContextRef : option nat
}.

(** Browser-side objects and the log of outgoing calls. *)
Record Platform := mkPlatform {
  contexts : list ContextState;
  connections : list ConnectionState;
  log : list Effect
}.

(** State of [App] and of [VideoStudio] that the authorization gate
    touches. *)
Record Studio := mkStudio {
  isKeySelected : bool;
  isGenerating : bool
}.

Record State := mkState {
  ui : Ui;
  agg : Aggregator;
  sched : Scheduler;
  refs : Refs;
  platform : Platform;
  studio : Studio
}.

Definition with_ui (f : Ui -> Ui) (s : State) : State :=
  mkState (f (ui s)) (agg s) (sched s) (refs s) (platform s) (studio s).
Definition with_agg (f : Aggregator -> Aggregator) (s : State) : State :=
  mkState (ui s) (f (agg s)) (sched s) (refs s) (platform s) (studio s).
Definition with_sched (f : Scheduler -> Scheduler) (s : State) : State :=
  mkState (ui s) (agg s) (f (sched s)) (refs s) (platform s) (studio s).
Definition with_refs (f : Refs -> Refs) (s : State) : State :=
  mkState (ui s) (agg s) (sched s) (f (refs s)) (platform s) (studio s).
Definition with_platform (f : Platform -> Platform) (s : State) : State :=
  mkState (ui s) (agg s) (sched s) (refs s) (f (platform s)) (studio s).
Definition with_studio (f : Studio -> Studio) (s : State) : State :=
  mkState (ui s) (agg s) (sched s) (refs s) (platform s) (f (studio s)).

Definition setIsActive (b : bool) (u : Ui) : Ui :=
  mkUi b (isConnecting u) (error u) (transcription u).
Definition setIsConnecting (b : bool) (u : Ui) : Ui :=
  mkUi (isActive u) b (error u) (transcription u).
Definition setError (e : option string) (u : Ui) : Ui :=
  mkUi (isActive u) (isConnecting u) e (transcription u).
Definition setTranscription (f : list TranscriptionItem -> list TranscriptionItem)
    (u : Ui) : Ui :=
  mkUi (isActive u) (isConnecting u) (error u) (f (transcription u)).

Definition emit (e : Effect) (p : Platform) : Platform :=
  mkPlatform (contexts p) (connections p) (log p ++ [e]).

(** The component as mounted: [useState] and [useRef] initial values. *)
Definition initialState (keySelected : bool) : State :=
  mkState (mkUi false false None [])
          (mkAggregator "" "")
          (mkScheduler 0%Q ∅ [])
          (mkRefs None None None)
          (mkPlatform [] [] [])
          (mkStudio keySelected false).

(** JavaScript truthiness of a string. *)
Definition truthy (s : string) : bool :=
  match s with EmptyString => false | _ => true end.

(** ** Transcript aggregator *)

(** [currentOutputTranscription.current += text] *)
Definition appendOutput (t : string) (a : Aggregator) : Aggregator :=
  mkAggregator (currentInputTranscription a) (currentOutputTranscription a ++ t).

(** [currentInputTranscription.current += text] *)
Definition appendInput (t : string) (a : Aggregator) : Aggregator :=
  mkAggregator (currentInputTranscription a ++ t) (currentOutputTranscription a).

(** The two spreads of the turn-complete branch. *)
Definition turnsOf (uTrans mTrans : string) : list TranscriptionItem :=
  (if truthy uTrans then [mkItem user uTrans] else [])
  ++ (if truthy mTrans then [mkItem model mTrans] else []).

(** The turn-complete branch on the accumulators: the turns to append and
    the cleared accumulators. *)
Definition completeTurn (a : Aggregator) : list TranscriptionItem * Aggregator :=
  (turnsOf (currentInputTranscription a) (currentOutputTranscription a),
   mkAggregator "" "").

(** ** Playback scheduler *)

Definition Math_max (a b : Q) : Q := if Qle_bool a b then b else a.

(** [nextStartTimeRef.current = Math.max(nextStartTimeRef.current, outCtx.currentTime)] *)
Definition syncCursor (now : Q) (sc : Scheduler) : Scheduler :=
  mkScheduler (Math_max (nextStartTimeRef sc) now) (sourcesRef sc) (nodes sc).

(** [createBufferSource], [source.start(nextStartTimeRef.current)],
    [nextStartTimeRef.current += audioBuffer.duration],
    [sourcesRef.current.add(source)]. *)
Definition schedule (b : AudioBuffer) (sc : Scheduler) : Scheduler :=
  mkScheduler (nextStartTimeRef sc + duration b)%Q
              ({[ length (nodes sc) ]} ∪ sourcesRef sc)
              (nodes sc ++ [mkSource b (nextStartTimeRef sc) false]).

Definition enqueue (now : Q) (b : AudioBuffer) (sc : Scheduler) : Scheduler :=
  schedule b (syncCursor now sc).

(** [source.stop()] *)
Definition stop (n : SourceNode) : SourceNode :=
  mkSource (buffer n) (startTime n) true.

(** The interruption branch: stop every member of the set, clear the set,
    reset the cursor. *)
Definition interrupt (sc : Scheduler) : Scheduler :=
  mkScheduler 0%Q ∅
    (imap (fun i n => if bool_decide (i ∈ sourcesRef sc) then stop n else n) (nodes sc)).

(** The ['ended'] listener of a source: [sourcesRef.current.delete(source)]. *)
Definition onended (id : nat) (sc : Scheduler) : Scheduler :=
  mkScheduler (nextStartTimeRef sc) (sourcesRef sc ∖ {[ id ]}) (nodes sc).

(** ** Inbound messages *)

(** [message.serverContent?.modelTurn?.parts[0]?.inlineData.data]: no model
    turn or no first part (the chain gives [undefined]); a model turn
    without [parts], or a first part without [inlineData] (the property
    access raises a TypeError); or the base64 payload. *)
Inductive ModelTurn :=
  | NoPart
  | PartWithoutInlineData
  | InlineData (data : string).

(** A message of the live connection, by the fields the handler reads; a
    transcription is given by its [text]. *)
Record ServerMessage := mkMessage {
  outputTranscription : option string;
  inputTranscription : option string;
  turnComplete : bool;
  modelTurn : ModelTurn;
  interrupted : bool
}.

Inductive Exception := TypeError | MalformedFrame.

(** How the promise of the [async] handler settles. *)
Inductive Outcome := Resolved | Rejected (e : Exception).

(** First statement of [onmessage]: the output text if present, else the
    input text if present. *)
Definition transcriptionPart (m : ServerMessage) (s : State) : State :=
  match outputTranscription m with
  | Some t => with_agg (appendOutput t) s
  | None =>
      match inputTranscription m with
      | Some t => with_agg (appendInput t) s
      | None => s
      end
  end.

(** Second statement: the turn-complete branch. *)
Definition turnCompletePart (m : ServerMessage) (s : State) : State :=
  if turnComplete m then
    let uTrans := currentInputTranscription (agg s) in
    let mTrans := currentOutputTranscription (agg s) in
    let (turns, cleared) := completeTurn (agg s) in
    let s1 :=
      if truthy uTrans || truthy mTrans
      then with_ui (setTranscription (fun prev => prev ++ turns)) s
      else s in
    with_agg (fun _ => cleared) s1
  else s.

(** Last statement: the interruption branch. *)
Definition interruptedPart (m : ServerMessage) (s : State) : State :=
  if interrupted m then with_sched interrupt s else s.

(** [decodeAudioData(decode(base64Audio), outCtx, 24000, 1)] *)
Definition decodeChunk (base64Audio : string) : option AudioBuffer :=
  match decode base64Audio with
  | Some bytes => decodeAudioData bytes 24000
  | None => None
  end.

(** The handler.  [now] is [outCtx.currentTime] when it runs.  The handler
    exists only after [startSession] has stored the output context in its
    ref, and no statement of the component resets that ref to [null], so
    the non-null assertion on it holds.  An exception ends the handler
    where it is raised: the statements after it do not run, the updates
    before it stay. *)
Definition onmessage (now : Q) (m : ServerMessage) (s : State) : State * Outcome :=
  let s1 := transcriptionPart m s in
  let s2 := turnCompletePart m s1 in
  match modelTurn m with
  | PartWithoutInlineData => (s2, Rejected TypeError)
  | NoPart => (interruptedPart m s2, Resolved)
  | InlineData base64Audio =>
      if truthy base64Audio then
        let s3 := with_sched (syncCursor now) s2 in
        match decodeChunk base64Audio with
        | None => (s3, Rejected MalformedFrame)
        | Some audioBuffer =>
            (interruptedPart m (with_sched (schedule audioBuffer) s3), Resolved)
        end
      else (interruptedPart m s2, Resolved)
  end.

(** The audio block alone, as far as it runs: nothing without a chunk
    (or when reading the chunk raises), the cursor moved up to the device
    time when the decoding fails, the chunk enqueued otherwise. *)
Definition audioPart (now : Q) (m : ServerMessage) (s : State) : State :=
  match modelTurn m with
  | InlineData base64Audio =>
      if truthy base64Audio then
        match decodeChunk base64Audio with
        | Some audioBuffer => with_sched (enqueue now audioBuffer) s
        | None => with_sched (syncCursor now) s
        end
      else s
  | _ => s
  end.

(** How the audio block ends: reading [inlineData.data] of a part
    without [inlineData] raises a TypeError, a chunk that does not decode
    raises the decoder's error. *)
Definition audioOutcome (m : ServerMessage) : Outcome :=
  match modelTurn m with
  | NoPart => Resolved
  | PartWithoutInlineData => Rejected TypeError
  | InlineData base64Audio =>
      if truthy base64Audio then
        match decodeChunk base64Audio with
        | Some _ => Resolved
        | None => Rejected MalformedFrame
        end
      else Resolved
  end.

(** ** Teardown *)

(** [AudioContext.close()] on the context [c]: a running context becomes
    closed, on a closed one the call is rejected.  (A ref only ever holds
    an allocated context, the last case is there for totality.) *)
Definition closeContext (c : nat) (p : Platform) : Platform :=
  match contexts p !! c with
  | Some Running =>
      mkPlatform (<[c := ContextClosed]> (contexts p)) (connections p)
                 (log p ++ [ContextClose c CloseResolved])
  | Some ContextClosed => emit (ContextClose c InvalidStateError) p
  | None => p
  end.

(** [session.close()] on the connection [k]; closing twice changes
    nothing more. *)
Definition closeConnection (k : nat) (p : Platform) : Platform :=
  mkPlatform (contexts p) (<[k := ConnectionClosed]> (connections p))
             (log p ++ [SessionClose k]).

Definition stopSession (s : State) : State :=
  let s1 :=
    match sessionRef (refs s) with
    | Some k =>
        with_refs (fun r => mkRefs None (audioContextRef r) (outputAudioContextRef r))
          (with_platform (closeConnection k) s)
    | None => s
    end in
  let s2 :=
    match audioContextRef (refs s1) with
    | Some c => with_platform (closeContext c) s1
    | None => s1
    end in
  let s3 :=
    match outputAudioContextRef (refs s2) with
    | Some c => with_platform (closeContext c) s2
    | None => s2
    end in
  with_ui (setIsConnecting false) (with_ui (setIsActive false) s3).

Definition onerror (s : State) : State :=
  stopSession (with_ui (setError (Some "Connection lost. Please try again.")) s).

Definition onclose (s : State) : State := stopSession s.

(** ** Starting a session *)

(** How [getUserMedia] settles: a stream, or a rejection with the name and
    message of the error. *)
Inductive MediaOutcome :=
  | StreamGranted
  | MediaRejected (name message : string).

(** How [ai.live.connect] settles: the connection opens, or the promise
    rejects with an error of the given message. *)
Inductive ConnectOutcome :=
  | Opened
  | ConnectFailed (message : string).

Record StartEnv := mkStartEnv {
  mediaDevicesSupported : bool;
  media : MediaOutcome;
  connect : ConnectOutcome
}.

(** The three statements before the [try]. *)
Definition startSession_begin (s : State) : State :=
  with_ui (setTranscription (fun _ => []))
    (with_ui (setIsConnecting true) (with_ui (setError None) s)).

(** The [catch] block. *)
Definition startSession_catch (message : string) (s : State) : State :=
  with_ui (setError (Some (if truthy message then message
                           else "Failed to start voice assistant.")))
    (with_ui (setIsConnecting false) s).

(** The [.catch] on [getUserMedia]: the message of the error rethrown. *)
Definition mediaErrorMessage (name message : string) : string :=
  if String.eqb name "NotFoundError" || String.eqb name "DevicesNotFoundError"
  then "No microphone detected. Please plug in a microphone and try again."
  else if String.eqb name "NotAllowedError" || String.eqb name "PermissionDeniedError"
  then "Microphone access denied. Please enable microphone permissions in your browser settings."
  else "Microphone error: " ++ message.

(** The two [new AudioContext] and the assignments to their refs. *)
Definition createContexts (s : State) : State :=
  let inputCtx := length (contexts (platform s)) in
  let outputCtx := S inputCtx in
  with_refs (fun r => mkRefs (sessionRef r) (Some inputCtx) (Some outputCtx))
    (with_platform (fun p =>
       mkPlatform (contexts p ++ [Running; Running]) (connections p)
                  (log p ++ [NewAudioContext inputCtx 16000;
                             NewAudioContext outputCtx 24000])) s).

(** The [onopen] callback; [inputCtx] is the context captured by the
    closure. *)
Definition onopen (inputCtx : nat) (s : State) : State :=
  with_platform (emit (CaptureGraphConnected inputCtx))
    (with_ui (setIsActive true) (with_ui (setIsConnecting false) s)).

(** [sessionRef.current = await sessionPromise] for a newly opened
    connection. *)
Definition storeSession (s : State) : State :=
  let k := length (connections (platform s)) in
  with_refs (fun r => mkRefs (Some k) (audioContextRef r) (outputAudioContextRef r))
    (with_platform (fun p =>
       mkPlatform (contexts p) (connections p ++ [Open]) (log p)) s).

(** From the resolution of [getUserMedia] to the call of
    [ai.live.connect]: the state while the connection is being opened. *)
Definition startSession_connecting (s0 : State) : State :=
  with_platform (emit LiveConnect)
    (createContexts (with_platform (emit (GetUserMedia true)) s0)).

Definition startSession (env : StartEnv) (s : State) : State :=
  let s0 := startSession_begin s in
  if negb (mediaDevicesSupported env)
  then startSession_catch "Your browser does not support audio recording." s0
  else
    match media env with
    | MediaRejected name message =>
        startSession_catch (mediaErrorMessage name message)
          (with_platform (emit (GetUserMedia false)) s0)
    | StreamGranted =>
        let inputCtx := length (contexts (platform s0)) in
        let s2 := startSession_connecting s0 in
        match connect env with
        | ConnectFailed message => startSession_catch message s2
        | Opened => storeSession (onopen inputCtx s2)
        end
    end.

(** ** Authorization (App and VideoStudio) *)

Definition setIsKeySelected (b : bool) (st : Studio) : Studio :=
  mkStudio b (isGenerating st).
Definition setIsGenerating (b : bool) (st : Studio) : Studio :=
  mkStudio (isKeySelected st) b.


(** [handleOpenKeySelector] of [App]; [aistudio] tells whether
    [window.aistudio.openSelectKey] is a function. *)
Definition handleOpenKeySelector (aistudio : bool) (s : State) : State :=
  if aistudio
  then with_studio (setIsKeySelected true) (with_platform (emit OpenSelectKey) s)
  else s.

(** How a video generation ends, as far as the key handling goes. *)
Inductive VideoOutcome := VideoReady | EntityNotFound | VideoFailed.

(** [generateVideo] of [VideoStudio], with [onOpenKeySelector] bound to
    [handleOpenKeySelector] as [App] does; the request and the polling
    are one [GenerateVideos] call. *)
Definition generateVideo (aistudio : bool) (outcome : VideoOutcome) (s : State) : State :=
  if negb (isKeySelected (studio s)) then handleOpenKeySelector aistudio s
  else
    let s1 := with_platform (emit GenerateVideos) (with_studio (setIsGenerating true) s) in
    let s2 :=
      match outcome with
      | EntityNotFound => handleOpenKeySelector aistudio s1
      | _ => s1
      end in
    with_studio (setIsGenerating false) s2.

(** ** The component as a transition system *)

Inductive Event :=
  | Start (env : StartEnv)
  | Stop
  | Message (now : Q) (m : ServerMessage)
  | TransportError
  | TransportClose
  | Ended (source : nat).

(** One event: the click on start or stop, or a callback.  The promise
    returned by [onmessage] is not awaited by anyone, so a rejection
    changes nothing beyond the state the handler left. *)
Definition step (s : State) (e : Event) : State :=
  match e with
  | Start env => startSession env s
  | Stop => stopSession s
  | Message now m => fst (onmessage now m s)
  | TransportError => onerror s
  | TransportClose => onclose s
  | Ended id => with_sched (onended id) s
  end.

Definition run (es : list Event) (s : State) : State := fold_left step es s.

(** The session state shown to the user, following the conditional that
    picks the icon: connecting, else active, else error, else idle (a
    session that was stopped shows as idle again). *)
Inductive SessionState := Idle | Connecting | Active | Errored.

Definition sessionState (s : State) : SessionState :=
  if isConnecting (ui s) then Connecting
  else if isActive (ui s) then Active
  else match error (ui s) with Some _ => Errored | None => Idle end.

(** What the buttons of the component offer: with an error, "Try Again"
    (start); else the main button, disabled while connecting, which stops
    an active session and starts otherwise. *)
Inductive Action := DoStart | DoStop.

Definition offered (s : State) : option Action :=
  match error (ui s) with
  | Some _ => Some DoStart
  | None =>
      if isConnecting (ui s) then None
      else if isActive (ui s) then Some DoStop else Some DoStart
  end.

(** Number of [close()] calls logged for the context [c], and of
    [session.close()] calls for the connection [k]. *)
Definition isContextClose (c : nat) (e : Effect) : bool :=
  match e with ContextClose c' _ => Nat.eqb c c' | _ => false end.
Definition isSessionClose (k : nat) (e : Effect) : bool :=
  match e with SessionClose k' => Nat.eqb k k' | _ => false end.
Definition isOpenSelectKey (e : Effect) : bool :=
  match e with OpenSelectKey => true | _ => false end.
Definition isGetUserMedia (e : Effect) : bool :=
  match e with GetUserMedia _ => true | _ => false end.

Definition count (p : Effect -> bool) (l : list Effect) : nat :=
  length (List.filter p l).

(** ** Sequences of operations used in the statements *)

(** Sum of durations, accumulated from the left as the cursor is. *)
Definition Qsum (ds : list Q) : Q := fold_left Qplus ds 0%Q.

(** Enqueueing a sequence of buffers while the device time is [now]. *)
Definition enqueueAll (now : Q) (bufs : list AudioBuffer) (sc : Scheduler) : Scheduler :=
  fold_left (fun sc b => enqueue now b sc) bufs sc.

(** Messages carrying a single part. *)
Definition inputText (t : string) : ServerMessage :=
  mkMessage None (Some t) false NoPart false.
Definition outputText (t : string) : ServerMessage :=
  mkMessage (Some t) None false NoPart false.
Definition turnCompleteSignal : ServerMessage :=
  mkMessage None None true NoPart false.
Definition audioChunk (data : string) : ServerMessage :=
  mkMessage None None false (InlineData data) false.
Definition interruption : ServerMessage :=
  mkMessage None None false NoPart true.

(** A browser with capture support in which the microphone is granted and
    the connection opens, and the active session it gives from a fresh
    component. *)
Definition workingEnv : StartEnv := mkStartEnv true StreamGranted Opened.

Definition activeSession (keySelected : bool) : State :=
  startSession workingEnv (initialState keySelected).

(** Six zero bytes (three frames), and three bytes (an odd length). *)
Definition threeFrames : string := "AAAAAAAA".
Definition oddBytes : string := "AAAA".

(** A scheduler in the middle of playback: one live source started at 6,
    the cursor at 7. *)
Definition staleScheduler : Scheduler :=
  mkScheduler 7 {[ 0%nat ]} [mkSource (mkAudioBuffer [0%Q] 24000) 6 false].

Definition twoFrames : AudioBuffer := mkAudioBuffer [0%Q; 0%Q] 24000.

Definition isStart (e : Event) : bool :=
  match e with Start _ => true | _ => false end.

(** ** Further vocabulary for the statements *)

(** Enqueueing buffers one after the other, each at its own device
    time. *)
Definition enqueueEach (items : list (Q * AudioBuffer)) (sc : Scheduler) : Scheduler :=
  fold_left (fun sc item => enqueue (fst item) (snd item) sc) items sc.

(** The messages of a list, delivered in order. *)
Definition deliver (ms : list (Q * ServerMessage)) : list Event :=
  map (fun item => Message (fst item) (snd item)) ms.

Definition Role_eqb (a b : Role) : bool :=
  match a, b with
  | user, user | model, model => true
  | _, _ => false
  end.

(** The text of the items of one role, concatenated in order. *)
Fixpoint roleText (r : Role) (items : list TranscriptionItem) : string :=
  match items with
  | [] => ""
  | item :: rest =>
      if Role_eqb (role item) r then text item ++ roleText r rest
      else roleText r rest
  end.

(** The text that the first statement of [onmessage] adds to the output
    accumulator, and to the input accumulator (nothing when the message
    also has an output transcription: the input branch is the [else]). *)
Definition outputOf (m : ServerMessage) : string :=
  match outputTranscription m with Some t => t | None => "" end.

Definition inputOf (m : ServerMessage) : string :=
  match outputTranscription m, inputTranscription m with
  | None, Some t => t
  | _, _ => ""
  end.

Fixpoint concatText (ts : list string) : string :=
  match ts with
  | [] => ""
  | t :: rest => t ++ concatText rest
  end.

(** The refs and the flags fit the browser objects: the two context refs
    are set together, to two distinct allocated contexts that are running
    whenever the session is active, and the session ref, when set, holds
    an open connection. *)
Definition refsReady (s : State) : Prop :=
  match audioContextRef (refs s), outputAudioContextRef (refs s) with
  | Some a, Some b =>
      b = S a /\ (b < length (contexts (platform s)))%nat /\
      (isActive (ui s) = true ->
       contexts (platform s) !! a = Some Running /\
       contexts (platform s) !! b = Some Running)
  | None, None => isActive (ui s) = false
  | _, _ => False
  end /\
  match sessionRef (refs s) with
  | Some k => connections (platform s) !! k = Some Open
  | None => True
  end.

(** Every member of the set of sources is a created node that was not
    stopped. *)
Definition sourcesLive (sc : Scheduler) : Prop :=
  forall i, i ∈ sourcesRef sc ->
    exists n, nodes sc !! i = Some n /\ stopped n = false.

(** The same source node at a later time: it keeps its buffer and its
    start time, and once stopped it stays stopped. *)
Definition sameSource (n n' : SourceNode) : Prop :=
  buffer n' = buffer n /\ startTime n' = startTime n /\
  (stopped n = true -> stopped n' = true).

(** An event that is not a message carrying the interruption signal. *)
Definition notInterrupting (e : Event) : bool :=
  match e with
  | Message _ m => negb (interrupted m)
  | _ => true
  end.

(** ** Data URLs *)

Definition isComma (c : ascii) : bool := Ascii.eqb c ","%char.

(** The text before the first comma, and the text after it ([None] when
    there is no comma). *)
Fixpoint beforeComma (s : string) : string :=
  match s with
  | EmptyString => EmptyString
  | String c rest => if isComma c then EmptyString else String c (beforeComma rest)
  end.

Fixpoint afterComma (s : string) : option string :=
  match s with
  | EmptyString => None
  | String c rest => if isComma c then Some rest else afterComma rest
  end.

(** [s.split(',')[1]]: the second field, [None] for [undefined]. *)
Definition splitSecond (s : string) : option string :=
  match afterComma s with
  | Some rest => Some (beforeComma rest)
  | None => None
  end.

Fixpoint noComma (s : string) : bool :=
  match s with
  | EmptyString => true
  | String c rest => negb (isComma c) && noComma rest
  end.

(** Truthiness of a [string | null]. *)
Definition truthyOpt (o : option string) : bool :=
  match o with Some s => truthy s | None => false end.

(** ** ImageStudio *)

Module ImageStudio.

(** A part of the request: inline image data (the second field of the
    data URL, possibly [undefined]) or text. *)
Inductive RequestPart :=
  | InlinePart (data : option string)
  | TextPart (t : string).

(** Calls that leave the component. *)
Inductive Call :=
  | GenerateContent (parts : list RequestPart)
  | Alert (message : string).

(** How [generateContent] settles: the parts of the first candidate (the
    empty list when the chain of optional accesses gives nothing), each
    with its [inlineData.data] if it has inline data; or an exception. *)
Inductive Response :=
  | Parts (parts : list (option string))
  | Failure.

Record HistoryItem := mkHistoryItem {
  url : string;
  itemPrompt : string
}.

Record State := mkState {
  prompt : string;
  isGenerating : bool;
  baseImage : option string;
  resultImage : option string;
  history : list HistoryItem;
  calls : list Call
}.

(** [String.prototype.trim] removes the white space and line terminator
    characters of ECMAScript from both ends: U+0009 to U+000D, U+0020,
    U+00A0, U+1680, U+2000 to U+200A, U+2028, U+2029, U+202F, U+205F,
    U+3000 and U+FEFF.  A string is held here as the bytes of its UTF-8
    encoding (the text of the prompt field is well-formed), so a white
    space character is one, two or three bytes.

    One byte: U+0009 to U+000D and U+0020. *)
Definition isSpace1 (c : ascii) : bool :=
  let n := nat_of_ascii c in
  ((9 <=? n) && (n <=? 13))%nat || (n =? 32)%nat.

(** Two bytes: U+00A0 (C2 A0). *)
Definition isSpace2 (a b : ascii) : bool :=
  ((nat_of_ascii a =? 194) && (nat_of_ascii b =? 160))%nat.

(** Three bytes: U+1680 (E1 9A 80); U+2000 to U+200A (E2 80 80 to
    E2 80 8A), U+2028 and U+2029 (E2 80 A8, E2 80 A9), U+202F (E2 80 AF);
    U+205F (E2 81 9F); U+3000 (E3 80 80); U+FEFF (EF BB BF). *)
Definition isSpace3 (a b c : ascii) : bool :=
  let x := nat_of_ascii a in
  let y := nat_of_ascii b in
  let z := nat_of_ascii c in
  ((x =? 225) && (y =? 154) && (z =? 128)
   || (x =? 226) && (y =? 128)
      && (((128 <=? z) && (z <=? 138)) || (z =? 168) || (z =? 169) || (z =? 175))
   || (x =? 226) && (y =? 129) && (z =? 159)
   || (x =? 227) && (y =? 128) && (z =? 128)
   || (x =? 239) && (y =? 187) && (z =? 191))%nat.

(** The white space characters at the front removed. *)
Fixpoint trimStart (cs : list ascii) : list ascii :=
  match cs with
  | [] => []
  | a :: rest =>
      if isSpace1 a then trimStart rest
      else
        match rest with
        | b :: rest2 =>
            if isSpace2 a b then trimStart rest2
            else
              match rest2 with
              | c :: rest3 => if isSpace3 a b c then trimStart rest3 else cs
              | [] => cs
              end
        | [] => cs
        end
  end.

(** The same at the end, on the bytes in reverse order: a character of
    bytes [a b c] is met as [c], [b], [a]. *)
Fixpoint trimEndReversed (rs : list ascii) : list ascii :=
  match rs with
  | [] => []
  | c :: rest =>
      if isSpace1 c then trimEndReversed rest
      else
        match rest with
        | b :: rest2 =>
            if isSpace2 b c then trimEndReversed rest2
            else
              match rest2 with
              | a :: rest3 => if isSpace3 a b c then trimEndReversed rest3 else rs
              | [] => rs
              end
        | [] => rs
        end
  end.

(** [prompt.trim()]. *)
Definition trim (s : string) : string :=
  string_of_list_ascii
    (rev (trimEndReversed (rev (trimStart (list_ascii_of_string s))))).

(** The bytes are white space characters and nothing else. *)
Fixpoint whiteOnly (cs : list ascii) : bool :=
  match cs with
  | [] => true
  | a :: rest =>
      if isSpace1 a then whiteOnly rest
      else
        match rest with
        | b :: rest2 =>
            if isSpace2 a b then whiteOnly rest2
            else
              match rest2 with
              | c :: rest3 => isSpace3 a b c && whiteOnly rest3
              | [] => false
              end
        | [] => false
        end
  end.

(** A sequence of white space characters, as a relation. *)
Inductive WhiteSeq : list ascii -> Prop :=
  | white_nil : WhiteSeq []
  | white_1 a rest : isSpace1 a = true -> WhiteSeq rest -> WhiteSeq (a :: rest)
  | white_2 a b rest : isSpace2 a b = true -> WhiteSeq rest -> WhiteSeq (a :: b :: rest)
  | white_3 a b c rest :
      isSpace3 a b c = true -> WhiteSeq rest -> WhiteSeq (a :: b :: c :: rest).

(** A no-break space (U+00A0), and an ideographic space (U+3000). *)
Definition noBreakSpace : string :=
  String (ascii_of_nat 194) (String (ascii_of_nat 160) EmptyString).

Definition ideographicSpace : string :=
  String (ascii_of_nat 227) (String (ascii_of_nat 128) (String (ascii_of_nat 128) EmptyString)).

(** The [for] loop over the parts: the data of the first part that has
    inline data. *)
Fixpoint firstInline (parts : list (option string)) : option string :=
  match parts with
  | [] => None
  | Some data :: _ => Some data
  | None :: rest => firstInline rest
  end.

Definition imageUrl (data : string) : string :=
  ("data:image/png;base64," ++ data)%string.

(** The parts sent: image and instruction in editing mode, the prompt
    alone otherwise. *)
Definition requestParts (s : State) : list RequestPart :=
  match baseImage s with
  | Some b =>
      if truthy b then
        [InlinePart (splitSecond b);
         TextPart (if truthy (prompt s) then prompt s else "Enhance this image")]
      else [TextPart (prompt s)]
  | None => [TextPart (prompt s)]
  end.

(** The guard of [handleGenerate], also the second half of the button's
    [disabled]. *)
Definition nothingToSend (s : State) : bool :=
  negb (truthy (trim (prompt s))) && negb (truthyOpt (baseImage s)).

Definition handleGenerate (response : Response) (s : State) : State :=
  if nothingToSend s then s
  else
    let sent := calls s ++ [GenerateContent (requestParts s)] in
    match response with
    | Parts parts =>
        match firstInline parts with
        | Some data =>
            mkState (prompt s) false (baseImage s) (Some (imageUrl data))
                    (mkHistoryItem (imageUrl data) (prompt s) :: history s) sent
        | None =>
            mkState (prompt s) false (baseImage s) (resultImage s) (history s) sent
        end
    | Failure =>
        mkState (prompt s) false (baseImage s) (resultImage s) (history s)
                (sent ++ [Alert "Failed to generate image. Please try again."])
    end.

Definition isGenerateContent (c : Call) : bool :=
  match c with GenerateContent _ => true | Alert _ => false end.

End ImageStudio.

(** ** VideoStudio: reference images and polling *)

Module VideoStudio.

(** The guard of [handleAddRefImage], evaluated when the file is chosen. *)
Definition mayAddRefImage (refImages : list string) : bool :=
  (length refImages <? 3)%nat.

(** [reader.onload] of [handleAddRefImage]: [prev => [...prev, result]]. *)
Definition onloadRefImage (data : string) (refImages : list string) : list string :=
  refImages ++ [data].

(** [handleAddRefImage] when the file has been read before anything else
    happens. *)
Definition handleAddRefImage (data : string) (refImages : list string) : list string :=
  if mayAddRefImage refImages then onloadRefImage data refImages else refImages.

Fixpoint filterIndex {A} (keep : nat -> bool) (i : nat) (l : list A) : list A :=
  match l with
  | [] => []
  | x :: rest => if keep i then x :: filterIndex keep (S i) rest
                 else filterIndex keep (S i) rest
  end.

(** The remove button: [prev.filter((_, i) => i !== idx)]. *)
Definition removeRefImage (idx : nat) (refImages : list string) : list string :=
  filterIndex (fun i => negb (Nat.eqb i idx)) 0 refImages.

(** An operation as the polling loop sees it: its [done] flag and the
    URI of its first video, if any. *)
Record Operation := mkOperation {
  done : bool;
  uri : option string
}.

(** What [getVideosOperation] gives to one request: an operation, or an
    exception. *)
Inductive Answer :=
  | Answered (operation : Operation)
  | Thrown.

(** How the polling loop ends, with the number of requests made: with an
    operation that is done, or by an exception (which the catch block of
    [generateVideo] takes); [StillPolling] when the answers run out with
    none done, the loop having no other way to end. *)
Inductive PollOutcome :=
  | Finished (final : Operation) (polls : nat)
  | Failed (polls : nat)
  | StillPolling.

Definition onePollMore (o : PollOutcome) : PollOutcome :=
  match o with
  | Finished final polls => Finished final (S polls)
  | Failed polls => Failed (S polls)
  | StillPolling => StillPolling
  end.

(** The polling loop, on the answers that the service will give in
    turn. *)
Fixpoint pollOperation (answers : list Answer) (operation : Operation) : PollOutcome :=
  if done operation then Finished operation 0
  else
    match answers with
    | [] => StillPolling
    | Answered next :: rest => onePollMore (pollOperation rest next)
    | Thrown :: _ => Failed 1
    end.

End VideoStudio.


(** The two things a user does to the list of reference images, each
    file being read before the next action. *)
Inductive RefAction :=
  | AddRef (data : string)
  | RemoveRef (idx : nat).

Definition applyRefAction (refImages : list string) (a : RefAction) : list string :=
  match a with
  | AddRef data => VideoStudio.handleAddRefImage data refImages
  | RemoveRef idx => VideoStudio.removeRefImage idx refImages
  end.

(** * Properties *)

(** ** Capture conversion *)

Section CodecFacts.
Import Codec.

Lemma ToInt16_range (n : Z) : -32768 <= ToInt16 n <= 32767.
Proof.
  unfold ToInt16. pose proof (Z.mod_pos_bound n 65536 eq_refl) as Hm.
  destruct (Z.leb_spec 32768 (n mod 65536)); lia.
Qed.

Lemma ToInt16_congruent (n : Z) : (ToInt16 n - n) mod 65536 = 0.
Proof.
  unfold ToInt16. pose proof (Z.div_mod n 65536 ltac:(lia)) as Hd.
  destruct (Z.leb_spec 32768 (n mod 65536)).
  - replace (n mod 65536 - 65536 - n) with ((- (n / 65536) - 1) * 65536) by lia.
    apply Z.mod_mul. lia.
  - replace (n mod 65536 - n) with ((- (n / 65536)) * 65536) by lia.
    apply Z.mod_mul. lia.
Qed.

Lemma ToInt16_id (n : Z) : -32768 <= n <= 32767 -> ToInt16 n = n.
Proof.
  intros Hn. unfold ToInt16.
  destruct (Z_lt_le_dec n 0) as [Hneg | Hpos].
  - assert (n mod 65536 = n + 65536) as ->.
    { symmetry. apply (Z.mod_unique n 65536 (-1)); lia. }
    destruct (Z.leb_spec 32768 (n + 65536)); lia.
  - rewrite Z.mod_small by lia.
    destruct (Z.leb_spec 32768 n); lia.
Qed.

Lemma truncate_scaled (x : Q) :
  truncate (x * 32768)%Q = Z.quot (Qnum x * 32768) (Z.pos (Qden x)).
Proof. unfold truncate. destruct x as [n d]. simpl. now rewrite Pos.mul_1_r. Qed.

Lemma truncate_scaled_bounds (x : Q) :
  (-1 <= x)%Q -> (x < 1)%Q -> -32768 <= truncate (x * 32768)%Q <= 32767.
Proof.
  intros Hlo Hhi. rewrite truncate_scaled.
  destruct x as [n d]. unfold Qle, Qlt in *. simpl in *.
  destruct (Z_lt_le_dec n 0) as [Hneg | Hpos].
  - replace (n * 32768) with (- (- n * 32768)) by lia.
    rewrite Z.quot_opp_l by lia.
    assert (0 <= Z.quot (- n * 32768) (Z.pos d) <= 32768); [|lia].
    split; [apply Z.quot_pos; lia|].
    apply Z.quot_le_upper_bound; lia.
  - split.
    + pose proof (Z.quot_pos (n * 32768) (Z.pos d)). lia.
    + assert (Z.quot (n * 32768) (Z.pos d) < 32768); [|lia].
      apply Z.quot_lt_upper_bound; lia.
Qed.

Lemma truncate_scaled_sign (x : Q) :
  Z.sgn (truncate (x * 32768)%Q) = 0 \/
  Z.sgn (truncate (x * 32768)%Q) = Z.sgn (Qnum x).
Proof.
  rewrite truncate_scaled. destruct x as [n d]. simpl.
  destruct (Z.eq_dec (Z.quot (n * 32768) (Z.pos d)) 0) as [E | E].
  - left. now rewrite E.
  - right. rewrite Z.quot_div by lia.
    rewrite Z.sgn_mul. rewrite Z.sgn_mul. 
    assert (Z.sgn (Z.pos d) = 1) as -> by reflexivity.
    assert (Z.sgn (n * 32768) = Z.sgn n) as -> by (rewrite Z.sgn_mul; simpl; lia).
    rewrite Z.quot_div in E by lia.
    assert (0 < Z.abs (n * 32768) / Z.abs (Z.pos d)).
    { pose proof (Z.div_pos (Z.abs (n * 32768)) (Z.abs (Z.pos d))). 
      assert (Z.abs (n * 32768) / Z.abs (Z.pos d) <> 0); [|lia].
      intros E0. rewrite E0 in E. lia. }
    rewrite (Z.sgn_pos (_ / _)) by lia. lia.
Qed.
End CodecFacts.

(** C5 (as amended).  The capture conversion does not clamp.  For a sample
    [x] with [-1 <= x < 1] the stored 16-bit value is the truncation of
    [32768 * x]: it is the value a saturating conversion would give, lies in
    the 16-bit range, and is zero or of the sign of [x], so nothing wraps
    inside that range. *)
Theorem sampleToPCM16_exact_inside (x : Q) :
  (-1 <= x)%Q -> (x < 1)%Q ->
  Codec.sampleToPCM16 x = Codec.truncate (x * 32768)%Q /\
  Codec.sampleToPCM16 x = Codec.spec_clampToPCM16 x /\
  -32768 <= Codec.sampleToPCM16 x <= 32767 /\
  (Z.sgn (Codec.sampleToPCM16 x) = 0 \/
   Z.sgn (Codec.sampleToPCM16 x) = Z.sgn (Qnum x)).
Proof.
  intros Hlo Hhi.
  pose proof (truncate_scaled_bounds x Hlo Hhi) as Hb.
  assert (Codec.sampleToPCM16 x = Codec.truncate (x * 32768)%Q) as E
    by (apply ToInt16_id; exact Hb).
  rewrite E. repeat split; try lia.
  - unfold Codec.spec_clampToPCM16. lia.
  - apply truncate_scaled_sign.
Qed.

Lemma sampleToPCM16_exact_inside_witness :
  Codec.sampleToPCM16 (1 # 2) = Codec.truncate ((1 # 2) * 32768)%Q /\
  Codec.sampleToPCM16 (1 # 2) = Codec.spec_clampToPCM16 (1 # 2) /\
  -32768 <= Codec.sampleToPCM16 (1 # 2) <= 32767 /\
  (Z.sgn (Codec.sampleToPCM16 (1 # 2)) = 0 \/
   Z.sgn (Codec.sampleToPCM16 (1 # 2)) = Z.sgn (Qnum (1 # 2))).
Proof.
  apply (sampleToPCM16_exact_inside (1 # 2)); unfold Qle, Qlt; simpl; lia.
Defined.

(** Outside that range the value is reduced modulo 2^16 instead. *)
Lemma sampleToPCM16_wraps (x : Q) :
  -32768 <= Codec.sampleToPCM16 x <= 32767 /\
  (Codec.sampleToPCM16 x - Codec.truncate (x * 32768)%Q) mod 65536 = 0.
Proof.
  split; [apply ToInt16_range | apply ToInt16_congruent].
Qed.

(** C5 fails as stated: the out-of-range sample 1.5 is stored as -16384,
    which is neither 16-bit extreme and has the opposite sign; a
    saturating conversion gives 32767. *)
Lemma sampleToPCM16_not_clamped :
  (1 < 3 # 2)%Q /\
  Codec.floatSamplesToPCM16 [(3 # 2)%Q] = [-16384] /\
  Codec.spec_clampToPCM16 (3 # 2) = 32767.
Proof. repeat split. Qed.

(** ** Playback scheduler *)

Section SchedulerFacts.

Lemma duration_nonneg (b : AudioBuffer) : (0 <= duration b)%Q.
Proof.
  unfold duration. apply Qle_shift_div_l.
  - reflexivity.
  - rewrite Qmult_0_l. unfold Qle. simpl. lia.
Qed.

Lemma Math_max_l (a b : Q) : (b <= a)%Q -> (Math_max a b == a)%Q.
Proof.
  intros H. unfold Math_max.
  destruct (Qle_bool a b) eqn:E; [|reflexivity].
  apply Qle_bool_iff in E. now apply Qle_antisym.
Qed.

Lemma Math_max_r (a b : Q) : (a <= b)%Q -> Math_max a b = b.
Proof.
  intros H. unfold Math_max. apply Qle_bool_iff in H. now rewrite H.
Qed.

Lemma Math_max_ge_l (a b : Q) : (a <= Math_max a b)%Q.
Proof.
  unfold Math_max. destruct (Qle_bool a b) eqn:E; [|apply Qle_refl].
  now apply Qle_bool_iff.
Qed.

Lemma Math_max_ge_r (a b : Q) : (b <= Math_max a b)%Q.
Proof.
  unfold Math_max. destruct (Qle_bool a b) eqn:E; [apply Qle_refl|].
  destruct (Qlt_le_dec a b) as [Hlt | Hle]; [|exact Hle].
  apply Qlt_le_weak, Qle_bool_iff in Hlt. congruence.
Qed.

Lemma enqueueAll_nodes (bufs : list AudioBuffer) :
  forall (sc : Scheduler) (acc : Q),
    (0 <= nextStartTimeRef sc)%Q ->
    (nextStartTimeRef sc == acc)%Q ->
    exists new,
      nodes (enqueueAll 0 bufs sc) = nodes sc ++ new /\
      buffer <$> new = bufs /\
      Forall (fun n => stopped n = false) new /\
      Forall2 Qeq (startTime <$> new)
        (imap (fun k _ => fold_left Qplus (take k (duration <$> bufs)) acc) bufs) /\
      (nextStartTimeRef (enqueueAll 0 bufs sc)
         == fold_left Qplus (duration <$> bufs) acc)%Q.
Proof.
  induction bufs as [|b bufs IH]; intros sc acc Hpos Hacc.
  - exists []. simpl. rewrite app_nil_r. repeat split; auto. 
  - pose proof (Math_max_l _ _ Hpos) as Hmax.
    pose proof (duration_nonneg b) as Hd.
    destruct (IH (enqueue 0 b sc) (acc + duration b)%Q) as (new & Hn & Hb & Hs & Ht & Hc).
    + simpl. rewrite Hmax. 
      apply Qle_trans with (0 + 0)%Q; [discriminate|].
      now apply Qplus_le_compat.
    + simpl. now rewrite Hmax, Hacc.
    + exists (mkSource b (Math_max (nextStartTimeRef sc) 0) false :: new).
      change (enqueueAll 0 (b :: bufs) sc) with (enqueueAll 0 bufs (enqueue 0 b sc)).
      repeat split.
      * rewrite Hn. simpl. now rewrite <- app_assoc.
      * now rewrite fmap_cons, Hb.
      * constructor; auto.
      * rewrite fmap_cons, imap_cons. constructor.
        -- simpl. now rewrite Hmax.
        -- exact Ht.
      * exact Hc.
Qed.

Lemma interrupt_nodes (sc : Scheduler) (i : nat) (n : SourceNode) :
  nodes sc !! i = Some n ->
  nodes (interrupt sc) !! i
    = Some (if bool_decide (i ∈ sourcesRef sc) then stop n else n).
Proof.
  intros H. unfold interrupt. simpl. now rewrite list_lookup_imap, H.
Qed.

Lemma interrupt_stops (sc : Scheduler) (i : nat) (n : SourceNode) :
  i ∈ sourcesRef sc -> nodes sc !! i = Some n ->
  nodes (interrupt sc) !! i = Some (stop n).
Proof.
  intros Hin H. rewrite (interrupt_nodes sc i n H).
  now rewrite bool_decide_eq_true_2.
Qed.

Lemma interrupt_length (sc : Scheduler) :
  length (nodes (interrupt sc)) = length (nodes sc).
Proof. unfold interrupt. simpl. apply length_imap. Qed.

(** Buffers enqueued at one device time, from any scheduler: the first
    starts at the maximum of cursor and device time, each next one where
    the one before it ends. *)
Lemma enqueueAll_from (now : Q) (bufs : list AudioBuffer) :
  forall (sc : Scheduler) (acc : Q),
    (Math_max (nextStartTimeRef sc) now == acc)%Q ->
    exists new,
      nodes (enqueueAll now bufs sc) = nodes sc ++ new /\
      buffer <$> new = bufs /\
      Forall (fun n => stopped n = false) new /\
      Forall2 Qeq (startTime <$> new)
        (imap (fun k _ => fold_left Qplus (take k (duration <$> bufs)) acc) bufs).
Proof.
  induction bufs as [|b bufs IH]; intros sc acc Hacc.
  - exists []. simpl. rewrite app_nil_r. repeat split; auto.
  - pose proof (duration_nonneg b) as Hd.
    pose proof (Math_max_ge_r (nextStartTimeRef sc) now) as Hge.
    destruct (IH (enqueue now b sc) (acc + duration b)%Q) as (new & Hn & Hb & Hs & Ht).
    + cbn [enqueue schedule syncCursor nextStartTimeRef].
      rewrite Math_max_l.
      * now rewrite Hacc.
      * apply Qle_trans with (Math_max (nextStartTimeRef sc) now + 0)%Q.
        -- now rewrite Qplus_0_r.
        -- apply Qplus_le_compat; [apply Qle_refl | exact Hd].
    + exists (mkSource b (Math_max (nextStartTimeRef sc) now) false :: new).
      change (enqueueAll now (b :: bufs) sc) with (enqueueAll now bufs (enqueue now b sc)).
      repeat split.
      * rewrite Hn. simpl. now rewrite <- app_assoc.
      * now rewrite fmap_cons, Hb.
      * constructor; auto.
      * rewrite fmap_cons, imap_cons. constructor.
        -- exact Hacc.
        -- exact Ht.
Qed.

(** The source of a chunk enqueued just before the flush is stopped by
    it. *)
Lemma interrupt_new_stopped (now : Q) (b : AudioBuffer) (sc : Scheduler) :
  drop (length (nodes sc)) (nodes (interrupt (enqueue now b sc)))
    = [mkSource b (Math_max (nextStartTimeRef sc) now) true].
Proof.
  unfold interrupt, enqueue, schedule, syncCursor.
  cbn [nodes sourcesRef nextStartTimeRef].
  rewrite imap_app, drop_app_length' by now rewrite length_imap.
  cbn [imap compose]. rewrite bool_decide_eq_true_2; [reflexivity|].
  rewrite Nat.add_0_r. set_solver.
Qed.

End SchedulerFacts.

(** In the first session.  Buffers enqueued from the initial cursor while
    the device time stays at 0: the nodes created are the buffers in
    order, none stopped, the k-th starts at the sum of the durations of
    the buffers before it, and the cursor ends at the sum of all
    durations.  Each single enqueue, in any state, starts its buffer at
    the maximum of cursor and device time and leaves the cursor one
    duration after that start. *)
Theorem enqueue_gapless (bufs : list AudioBuffer) (keySelected : bool) :
  let sc := enqueueAll 0 bufs (sched (initialState keySelected)) in
  buffer <$> nodes sc = bufs /\
  Forall (fun n => stopped n = false) (nodes sc) /\
  Forall2 Qeq (startTime <$> nodes sc)
    (imap (fun k _ => Qsum (take k (duration <$> bufs))) bufs) /\
  (nextStartTimeRef sc == Qsum (duration <$> bufs))%Q /\
  (forall now b sc0,
     nodes (enqueue now b sc0)
       = nodes sc0 ++ [mkSource b (Math_max (nextStartTimeRef sc0) now) false] /\
     nextStartTimeRef (enqueue now b sc0)
       = (Math_max (nextStartTimeRef sc0) now + duration b)%Q).
Proof.
  intros sc.
  destruct (enqueueAll_nodes bufs (sched (initialState keySelected)) 0%Q)
    as (new & Hn & Hb & Hs & Ht & Hc); [apply Qle_refl | reflexivity |].
  subst sc. rewrite Hn.
  change (nodes (sched (initialState keySelected)) ++ new) with new.
  repeat split; auto.
Qed.

(** C2.  After the interruption branch the set of sources is empty, the
    cursor is 0 and every source that was in the set has been stopped;
    the result does not depend on the cursor before the interruption, and
    the next enqueue, at a device time [now] (the time of an audio context
    is never negative), starts its buffer at [now]. *)
Theorem interrupt_resets (sc : Scheduler) (now : Q) (b : AudioBuffer) :
  (0 <= now)%Q ->
  sourcesRef (interrupt sc) = ∅ /\
  nextStartTimeRef (interrupt sc) = 0%Q /\
  (forall stale, interrupt (mkScheduler stale (sourcesRef sc) (nodes sc)) = interrupt sc) /\
  (forall i n, i ∈ sourcesRef sc -> nodes sc !! i = Some n ->
     nodes (interrupt sc) !! i = Some (stop n)) /\
  nodes (enqueue now b (interrupt sc))
    = nodes (interrupt sc) ++ [mkSource b now false] /\
  nextStartTimeRef (enqueue now b (interrupt sc)) = (now + duration b)%Q.
Proof.
  intros Hnow. repeat split.
  - apply interrupt_stops.
  - unfold enqueue, schedule, syncCursor. simpl. now rewrite Math_max_r.
  - unfold enqueue, schedule, syncCursor. simpl. now rewrite Math_max_r.
Qed.

Lemma interrupt_resets_witness :
  (0 <= 1 # 2)%Q /\
  sourcesRef (interrupt staleScheduler) = ∅ /\
  nextStartTimeRef (interrupt staleScheduler) = 0%Q /\
  (forall stale,
     interrupt (mkScheduler stale (sourcesRef staleScheduler) (nodes staleScheduler))
       = interrupt staleScheduler) /\
  (forall i n, i ∈ sourcesRef staleScheduler -> nodes staleScheduler !! i = Some n ->
     nodes (interrupt staleScheduler) !! i = Some (stop n)) /\
  nodes (enqueue (1 # 2) twoFrames (interrupt staleScheduler))
    = nodes (interrupt staleScheduler) ++ [mkSource twoFrames (1 # 2) false] /\
  nextStartTimeRef (enqueue (1 # 2) twoFrames (interrupt staleScheduler))
    = ((1 # 2) + duration twoFrames)%Q.
Proof.
  assert (H : (0 <= 1 # 2)%Q) by discriminate.
  split; [exact H |].
  exact (interrupt_resets staleScheduler (1 # 2) twoFrames H).
Defined.

(** ** The message handler *)

Section DecoderFacts.

(** The decoder rejects exactly the buffers of odd byte length. *)
Lemma pcm16ToFloatSamples_parity (data : list Z) :
  (if Nat.even (length data)
   then exists samples, pcm16ToFloatSamples data = Some samples /\
                        (2 * length samples = length data)%nat
   else pcm16ToFloatSamples data = None).
Proof.
  induction data as [data IH] using (induction_ltof1 _ (@length Z)).
  destruct data as [|lo [|hi rest]].
  - exists []. split; reflexivity.
  - reflexivity.
  - assert (Hlt : ltof _ (@length Z) rest (lo :: hi :: rest))
      by (unfold ltof; simpl; lia).
    specialize (IH rest Hlt).
    change (Nat.even (length (lo :: hi :: rest))) with (Nat.even (length rest)).
    destruct (Nat.even (length rest)).
    + destruct IH as (samples & E & Hl). simpl. rewrite E.
      eexists. split; [reflexivity|]. simpl. lia.
    + simpl. now rewrite IH.
Qed.

Lemma decodeAudioData_rejects_odd (data : list Z) (rate : positive) :
  Nat.odd (length data) = true -> decodeAudioData data rate = None.
Proof.
  intros Hodd. unfold decodeAudioData.
  pose proof (pcm16ToFloatSamples_parity data) as H.
  rewrite <- Nat.negb_odd, Hodd in H. simpl in H. now rewrite H.
Qed.

End DecoderFacts.

Section HandlerFacts.

(** The two transcript statements leave everything but the accumulators
    and the transcription alone. *)
Lemma transcriptionPart_frame (m : ServerMessage) (s : State) :
  ui (transcriptionPart m s) = ui s /\
  sched (transcriptionPart m s) = sched s /\
  refs (transcriptionPart m s) = refs s /\
  platform (transcriptionPart m s) = platform s /\
  studio (transcriptionPart m s) = studio s.
Proof.
  unfold transcriptionPart.
  destruct (outputTranscription m), (inputTranscription m); repeat split.
Qed.

Lemma truthy_orb_turnsOf (u t : string) :
  truthy u || truthy t = false -> turnsOf u t = [].
Proof.
  unfold turnsOf. destruct (truthy u), (truthy t); simpl; congruence.
Qed.

Lemma turnCompletePart_transcription (m : ServerMessage) (s : State) :
  transcription (ui (turnCompletePart m s))
    = transcription (ui s)
      ++ (if turnComplete m then fst (completeTurn (agg s)) else []).
Proof.
  unfold turnCompletePart. destruct (turnComplete m); [|now rewrite app_nil_r].
  simpl.
  destruct (truthy (currentInputTranscription (agg s))
            || truthy (currentOutputTranscription (agg s))) eqn:E; simpl.
  - reflexivity.
  - rewrite (truthy_orb_turnsOf _ _ E). now rewrite app_nil_r.
Qed.

Lemma turnCompletePart_frame (m : ServerMessage) (s : State) :
  isActive (ui (turnCompletePart m s)) = isActive (ui s) /\
  isConnecting (ui (turnCompletePart m s)) = isConnecting (ui s) /\
  error (ui (turnCompletePart m s)) = error (ui s) /\
  sched (turnCompletePart m s) = sched s /\
  refs (turnCompletePart m s) = refs s /\
  platform (turnCompletePart m s) = platform s /\
  studio (turnCompletePart m s) = studio s.
Proof.
  unfold turnCompletePart. destruct (turnComplete m); [|repeat split].
  simpl.
  destruct (truthy (currentInputTranscription (agg s))
            || truthy (currentOutputTranscription (agg s))); repeat split.
Qed.

Lemma turnCompletePart_agg (m : ServerMessage) (s : State) :
  agg (turnCompletePart m s)
    = if turnComplete m then mkAggregator "" "" else agg s.
Proof.
  unfold turnCompletePart. destruct (turnComplete m); [|reflexivity].
  simpl.
  now destruct (truthy (currentInputTranscription (agg s))
                || truthy (currentOutputTranscription (agg s))).
Qed.

(** The scheduler and the flags as the audio statement finds them. *)
Lemma before_audio (m : ServerMessage) (s : State) :
  let s2 := turnCompletePart m (transcriptionPart m s) in
  sched s2 = sched s /\ refs s2 = refs s /\ platform s2 = platform s /\
  studio s2 = studio s /\
  isActive (ui s2) = isActive (ui s) /\
  isConnecting (ui s2) = isConnecting (ui s) /\
  error (ui s2) = error (ui s).
Proof.
  intros s2. subst s2.
  destruct (transcriptionPart_frame m s) as (Hu & Hs & Hr & Hp & Ht).
  destruct (turnCompletePart_frame m (transcriptionPart m s))
    as (Ha & Hc & He & Hs' & Hr' & Hp' & Ht').
  rewrite Ha, Hc, He, Hs', Hr', Hp', Ht', Hu, Hs, Hr, Hp, Ht. repeat split.
Qed.

(** The handler never touches the session flags, the resource refs or
    the browser objects, and only ever appends to the transcription. *)
Lemma onmessage_frame (now : Q) (m : ServerMessage) (s : State) :
  let s' := fst (onmessage now m s) in
  isActive (ui s') = isActive (ui s) /\
  isConnecting (ui s') = isConnecting (ui s) /\
  error (ui s') = error (ui s) /\
  refs s' = refs s /\ platform s' = platform s /\ studio s' = studio s /\
  transcription (ui s')
    = transcription (ui s)
      ++ (if turnComplete m
          then fst (completeTurn (agg (transcriptionPart m s))) else []).
Proof.
  intros s'. subst s'.
  destruct (before_audio m s) as (Hs & Hr & Hp & Ht & Ha & Hc & He).
  pose proof (turnCompletePart_transcription m (transcriptionPart m s)) as Htr.
  destruct (transcriptionPart_frame m s) as (Hu & _).
  rewrite Hu in Htr.
  unfold onmessage.
  destruct (modelTurn m) as [| |d]; simpl;
    [ | | destruct (truthy d); [destruct (decodeChunk d)|] ]; simpl;
    unfold interruptedPart; try destruct (interrupted m); simpl;
    rewrite ?Hr, ?Hp, ?Ht, ?Ha, ?Hc, ?He, ?Htr; repeat split.
Qed.

Lemma stopSession_ui (s : State) :
  ui (stopSession s) = mkUi false false (error (ui s)) (transcription (ui s)).
Proof.
  unfold stopSession.
  destruct (sessionRef (refs s)); simpl;
    destruct (audioContextRef (refs s)); simpl;
    destruct (outputAudioContextRef (refs s)); reflexivity.
Qed.

Lemma stopSession_frame (s : State) :
  agg (stopSession s) = agg s /\ sched (stopSession s) = sched s /\
  studio (stopSession s) = studio s /\
  refs (stopSession s)
    = mkRefs None (audioContextRef (refs s)) (outputAudioContextRef (refs s)).
Proof.
  destruct s as [u a sc [[k|] [c|] [o|]] p st]; repeat split.
Qed.

Lemma startSession_frame (env : StartEnv) (s : State) :
  agg (startSession env s) = agg s /\ sched (startSession env s) = sched s /\
  studio (startSession env s) = studio s.
Proof.
  destruct env as [[|] [|name msg] [|msg']]; repeat split.
Qed.

Lemma startSession_transcription (env : StartEnv) (s : State) :
  transcription (ui (startSession env s)) = [].
Proof.
  unfold startSession.
  destruct (mediaDevicesSupported env); simpl; [|reflexivity].
  destruct (media env); [|reflexivity].
  destruct (connect env); reflexivity.
Qed.

Lemma onmessage_audioChunk (now : Q) (d : string) (b : AudioBuffer) (s : State) :
  truthy d = true -> decodeChunk d = Some b ->
  onmessage now (audioChunk d) s = (with_sched (enqueue now b) s, Resolved).
Proof.
  intros Ht Hd. unfold onmessage. simpl. rewrite Ht, Hd.
  now destruct s.
Qed.

Lemma onmessage_interruption (now : Q) (s : State) :
  onmessage now interruption s = (with_sched interrupt s, Resolved).
Proof. reflexivity. Qed.

(** The handler as its four statements in order, the last one run only
    when the audio block raises nothing. *)
Lemma onmessage_parts (now : Q) (m : ServerMessage) (s : State) :
  onmessage now m s
    = let s3 := audioPart now m (turnCompletePart m (transcriptionPart m s)) in
      match audioOutcome m with
      | Resolved => (interruptedPart m s3, Resolved)
      | Rejected e => (s3, Rejected e)
      end.
Proof.
  unfold onmessage, audioPart, audioOutcome.
  destruct (modelTurn m) as [| |d]; try reflexivity.
  destruct (truthy d); [|reflexivity].
  destruct (decodeChunk d) as [b|]; [|reflexivity].
  now destruct (turnCompletePart m (transcriptionPart m s)).
Qed.

Lemma audioPart_sched (now : Q) (m : ServerMessage) (s : State) :
  match audioOutcome m with
  | Resolved =>
      sched (audioPart now m s) = sched s \/
      exists b, sched (audioPart now m s) = enqueue now b (sched s)
  | Rejected _ =>
      sourcesRef (sched (audioPart now m s)) = sourcesRef (sched s) /\
      nodes (sched (audioPart now m s)) = nodes (sched s)
  end.
Proof.
  unfold audioPart, audioOutcome.
  destruct (modelTurn m) as [| |d]; [now left | now split |].
  destruct (truthy d); [|now left].
  destruct (decodeChunk d) as [b|]; destruct s as [u a sc r p st]; simpl.
  - right. now exists b.
  - now split.
Qed.

End HandlerFacts.

(** C3.  Buffers enqueued while the device time stays at [now], with no
    interruption, play back to back from any scheduler: the k-th starts
    at the maximum of cursor and device time plus the durations of the
    buffers before it.  The sums of the claim need the cursor to be at
    most the device time when the sequence begins, and a new session does
    not give that: [stopSession] and [startSession] leave the cursor of
    the old session, while the output context of the new session is a
    new one whose clock starts at 0.  After a session in which a chunk of
    three frames (1/8000 s) was played, a stop and a start, two buffers
    enqueued at device time 0 start at 1/8000 and 5/24000, not at 0 and
    1/12000; the same shows on the handler, for two chunks received by
    the second session at device time 0. *)
Theorem enqueue_after_restart_starts_late :
  (forall (sc : Scheduler) (now : Q) (bufs : list AudioBuffer),
     exists new,
       nodes (enqueueAll now bufs sc) = nodes sc ++ new /\
       buffer <$> new = bufs /\
       Forall2 Qeq (startTime <$> new)
         (imap (fun k _ => fold_left Qplus (take k (duration <$> bufs))
                             (Math_max (nextStartTimeRef sc) now)) bufs)) /\
  (forall (s : State) (env : StartEnv),
     nextStartTimeRef (sched (startSession env (stopSession s)))
       = nextStartTimeRef (sched s)) /\
  (let first := run [Start workingEnv; Message 0 (audioChunk threeFrames)]
                    (initialState true) in
   let second := run [Stop; Start workingEnv] first in
   let bufs := [twoFrames; twoFrames] in
   sessionState second = Active /\
   outputAudioContextRef (refs first) = Some 1%nat /\
   outputAudioContextRef (refs second) = Some 3%nat /\
   (nextStartTimeRef (sched second) == 1 # 8000)%Q /\
   Forall2 Qeq
     (startTime <$> drop 1 (nodes (enqueueAll 0 bufs (sched second))))
     [1 # 8000; 5 # 24000]%Q /\
   Forall2 Qeq (imap (fun k _ => Qsum (take k (duration <$> bufs))) bufs)
     [0; 1 # 12000]%Q /\
   ~ Forall2 Qeq
       (startTime <$> drop 1 (nodes (enqueueAll 0 bufs (sched second))))
       (imap (fun k _ => Qsum (take k (duration <$> bufs))) bufs) /\
   Forall2 Qeq
     (startTime <$> drop 1 (nodes (sched (run [Message 0 (audioChunk threeFrames);
                                               Message 0 (audioChunk threeFrames)]
                                              second))))
     [1 # 8000; 1 # 4000]%Q).
Proof.
  split; [|split].
  - intros sc now bufs.
    destruct (enqueueAll_from now bufs sc (Math_max (nextStartTimeRef sc) now))
      as (new & Hn & Hb & _ & Ht); [reflexivity|].
    exists new. auto.
  - intros s env.
    destruct (stopSession_frame s) as (_ & Hs & _).
    destruct (startSession_frame env (stopSession s)) as (_ & Hs' & _).
    congruence.
  - vm_compute. repeat split.
    + repeat constructor.
    + repeat constructor.
    + intros H. inversion H as [|x y l l' Hxy _]. discriminate Hxy.
    + repeat constructor.
Qed.

(** C4.  The turns of a turn-complete signal are the user turn then the
    model turn, each present exactly when its accumulator is non-empty;
    the handler appends them to the transcription and clears both
    accumulators, and with both empty it appends nothing and resolves.
    The three cases of the specification hold, on the accumulators and on
    the messages that feed them. *)
Theorem completeTurn_order :
  (forall a,
     fst (completeTurn a)
       = List.filter (fun t => truthy (text t))
           [mkItem user (currentInputTranscription a);
            mkItem model (currentOutputTranscription a)] /\
     snd (completeTurn a) = mkAggregator "" "") /\
  (forall now s,
     snd (onmessage now turnCompleteSignal s) = Resolved /\
     transcription (ui (fst (onmessage now turnCompleteSignal s)))
       = transcription (ui s) ++ fst (completeTurn (agg s)) /\
     agg (fst (onmessage now turnCompleteSignal s)) = mkAggregator "" "") /\
  (forall (keySelected : bool) (now : Q),
     let a0 := agg (initialState keySelected) in
     let s0 := activeSession keySelected in
     fst (completeTurn (appendOutput "hello" (appendInput "hi" a0)))
       = [mkItem user "hi"; mkItem model "hello"] /\
     fst (completeTurn (appendOutput "hi" a0)) = [mkItem model "hi"] /\
     fst (completeTurn a0) = [] /\
     transcription (ui (run [Message now (inputText "hi");
                             Message now (outputText "hello");
                             Message now turnCompleteSignal] s0))
       = [mkItem user "hi"; mkItem model "hello"] /\
     transcription (ui (run [Message now (outputText "hi");
                             Message now turnCompleteSignal] s0))
       = [mkItem model "hi"] /\
     transcription (ui (run [Message now turnCompleteSignal] s0)) = []).
Proof.
  split; [|split].
  - intros [u t]. unfold completeTurn, turnsOf. simpl.
    destruct (truthy u), (truthy t); split; reflexivity.
  - intros now s.
    pose proof (turnCompletePart_transcription turnCompleteSignal s) as Htr.
    pose proof (turnCompletePart_agg turnCompleteSignal s) as Hag.
    repeat split; assumption.
  - intros keySelected now. repeat split.
Qed.

(** C9 (as amended).  Every event other than a start keeps the
    transcription as a prefix of the new one, and so does every sequence
    of such events; a start replaces it by the empty log. *)
Theorem transcription_append_only :
  (forall s e,
     match e with
     | Start _ => transcription (ui (step s e)) = []
     | _ => transcription (ui s) `prefix_of` transcription (ui (step s e))
     end) /\
  (forall es s,
     transcription (ui s)
       `prefix_of` transcription (ui (run (List.filter (fun e => negb (isStart e)) es) s))).
Proof.
  assert (Hstep : forall s e,
     match e with
     | Start _ => transcription (ui (step s e)) = []
     | _ => transcription (ui s) `prefix_of` transcription (ui (step s e))
     end).
  { intros s [env| |now m| | |id]; unfold step.
    - apply startSession_transcription.
    - now rewrite stopSession_ui.
    - destruct (onmessage_frame now m s) as (_ & _ & _ & _ & _ & _ & ->).
      apply prefix_app_r. reflexivity.
    - unfold onerror. now rewrite stopSession_ui.
    - unfold onclose. now rewrite stopSession_ui.
    - reflexivity. }
  split; [exact Hstep|].
  induction es as [|e es IH]; intros s; [reflexivity|].
  destruct e as [env| |now m| | |id]; cbn [List.filter isStart negb run fold_left];
    try apply IH;
    (etransitivity; [|apply IH]).
  - exact (Hstep s Stop).
  - exact (Hstep s (Message now m)).
  - exact (Hstep s TransportError).
  - exact (Hstep s TransportClose).
  - exact (Hstep s (Ended id)).
Qed.

(** C9 fails as stated: a start after a finished turn empties the log. *)
Lemma startSession_clears_transcription :
  let s := run [Message 0 (outputText "hi"); Message 0 turnCompleteSignal]
               (activeSession true) in
  transcription (ui s) = [mkItem model "hi"] /\
  transcription (ui (step s (Start workingEnv))) = [] /\
  ~ transcription (ui s) `prefix_of` transcription (ui (step s (Start workingEnv))).
Proof.
  repeat split. intros [k Hk]. discriminate Hk.
Qed.

(** C6.  A message whose audio chunk does not decode: the handler's
    promise rejects with the decoder's error and nothing is scheduled
    (the nodes and the set of sources are as before, the cursor was only
    moved up to the device time); the session flags, the refs and the
    browser objects are untouched, so the session is in the state it was
    in; and the events that follow are handled from there, a later chunk
    that decodes being scheduled as usual. *)
Theorem malformed_chunk_dropped (s : State) (now : Q) (m : ServerMessage) (d : string) :
  modelTurn m = InlineData d -> truthy d = true -> decodeChunk d = None ->
  let s' := fst (onmessage now m s) in
  snd (onmessage now m s) = Rejected MalformedFrame /\
  nodes (sched s') = nodes (sched s) /\
  sourcesRef (sched s') = sourcesRef (sched s) /\
  nextStartTimeRef (sched s') = Math_max (nextStartTimeRef (sched s)) now /\
  isActive (ui s') = isActive (ui s) /\
  isConnecting (ui s') = isConnecting (ui s) /\
  error (ui s') = error (ui s) /\
  refs s' = refs s /\ platform s' = platform s /\
  sessionState s' = sessionState s /\
  (forall es, run (Message now m :: es) s = run es s') /\
  (forall now' d' b', truthy d' = true -> decodeChunk d' = Some b' ->
     nodes (sched (step s' (Message now' (audioChunk d'))))
       = nodes (sched s)
         ++ [mkSource b' (Math_max (Math_max (nextStartTimeRef (sched s)) now) now') false]).
Proof.
  intros Hm Ht Hd s'.
  destruct (onmessage_frame now m s) as (Ha & Hc & He & Hr & Hp & _).
  fold s' in Ha, Hc, He, Hr, Hp.
  destruct (before_audio m s) as (Hs & _).
  assert (Hon : onmessage now m s
                = (with_sched (syncCursor now) (turnCompletePart m (transcriptionPart m s)),
                   Rejected MalformedFrame)).
  { unfold onmessage. now rewrite Hm, Ht, Hd. }
  assert (Hsched : sched s' = syncCursor now (sched s)).
  { subst s'. rewrite Hon. simpl. now rewrite Hs. }
  repeat split; try assumption.
  - now rewrite Hon.
  - now rewrite Hsched.
  - now rewrite Hsched.
  - now rewrite Hsched.
  - unfold sessionState. now rewrite Ha, Hc, He.
  - intros now' d' b' Ht' Hd'. unfold step.
    rewrite (onmessage_audioChunk now' d' b' s' Ht' Hd'). simpl.
    now rewrite Hsched.
Qed.

Lemma malformed_chunk_dropped_witness :
  let s := fst (onmessage 0 (audioChunk threeFrames) (activeSession true)) in
  let m := mkMessage None None false (InlineData oddBytes) true in
  snd (onmessage (1 # 4) m s) = Rejected MalformedFrame /\
  nodes (sched (fst (onmessage (1 # 4) m s))) = nodes (sched s) /\
  sessionState (fst (onmessage (1 # 4) m s)) = Active.
Proof.
  intros s m.
  destruct (malformed_chunk_dropped s (1 # 4) m oddBytes eq_refl eq_refl eq_refl)
    as (Ho & Hn & _ & _ & _ & _ & _ & _ & _ & Hst & _).
  split; [exact Ho | split; [exact Hn |]].
  rewrite Hst. reflexivity.
Defined.

(** A message that carries the interruption signal and on which the
    handler completes: afterwards the set of sources is
    empty, the cursor is 0, every source that was in the set has been
    stopped and so has any source created by this message.  When the
    message carries a chunk that decodes, the handler runs the transcript
    statement, the turn-complete statement, the enqueue and the flush in
    that order, and the source of the chunk, started at the maximum of
    cursor and device time, is stopped by the flush. *)
Theorem chunk_then_interruption (s : State) (now : Q) (m : ServerMessage) :
  interrupted m = true ->
  snd (onmessage now m s) = Resolved ->
  let s' := fst (onmessage now m s) in
  sourcesRef (sched s') = ∅ /\
  nextStartTimeRef (sched s') = 0%Q /\
  (forall i n, i ∈ sourcesRef (sched s) -> nodes (sched s) !! i = Some n ->
     nodes (sched s') !! i = Some (stop n)) /\
  (forall i n, (length (nodes (sched s)) <= i)%nat -> nodes (sched s') !! i = Some n ->
     stopped n = true) /\
  (forall d b, modelTurn m = InlineData d -> truthy d = true ->
     decodeChunk d = Some b ->
     onmessage now m s
       = (with_sched interrupt
            (with_sched (enqueue now b) (turnCompletePart m (transcriptionPart m s))),
          Resolved) /\
     nodes (sched s') !! length (nodes (sched s))
       = Some (mkSource b (Math_max (nextStartTimeRef (sched s)) now) true)).
Proof.
  intros Hi Hres s'.
  destruct (before_audio m s) as (Hs & _).
  set (s2 := turnCompletePart m (transcriptionPart m s)) in *.
  assert (Hflush : forall s3, interruptedPart m s3 = with_sched interrupt s3)
    by (intros s3; unfold interruptedPart; now rewrite Hi).
  assert (Hcases :
    (sched s' = interrupt (sched s) /\
     (forall d b, modelTurn m = InlineData d -> truthy d = true ->
        decodeChunk d = Some b -> False)) \/
    (exists d b, modelTurn m = InlineData d /\ truthy d = true /\
        decodeChunk d = Some b /\
        onmessage now m s = (with_sched interrupt (with_sched (enqueue now b) s2), Resolved))).
  { subst s'. revert Hres. unfold onmessage. fold s2.
    destruct (modelTurn m) as [| |d] eqn:Hm.
    - intros _. left. rewrite Hflush. simpl. rewrite Hs. split; [reflexivity|].
      intros; discriminate.
    - discriminate.
    - destruct (truthy d) eqn:Ht.
      + destruct (decodeChunk d) as [b|] eqn:Hd; [|discriminate].
        intros _. right. exists d, b. rewrite Hflush.
        repeat split; assumption.
      + intros _. left. rewrite Hflush. simpl. rewrite Hs. split; [reflexivity|].
        intros d' b' E Ht' _. injection E as <-. congruence. }
  destruct Hcases as [(Hsched & Hno) | (d & b & Hm & Ht & Hd & Hon)].
  - rewrite Hsched. repeat split.
    + apply interrupt_stops.
    + intros i n Hle Hn. apply lookup_lt_Some in Hn.
      rewrite interrupt_length in Hn. lia.
    + exfalso. eauto.
    + exfalso. eauto.
  - assert (Hsched : sched s' = interrupt (enqueue now b (sched s)))
      by (subst s'; rewrite Hon; simpl; now rewrite Hs).
    assert (Hnew : nodes (interrupt (enqueue now b (sched s))) !! length (nodes (sched s))
                   = Some (stop (mkSource b (Math_max (nextStartTimeRef (sched s)) now) false))).
    { apply interrupt_stops.
      - simpl. set_solver.
      - simpl. rewrite lookup_app_r by lia. now rewrite Nat.sub_diag. }
    rewrite Hsched. repeat split.
    + intros i n Hin Hn. apply interrupt_stops.
      * simpl. set_solver.
      * simpl. now apply lookup_app_l_Some.
    + intros i n Hle Hn.
      assert (i = length (nodes (sched s))) as ->.
      { apply lookup_lt_Some in Hn. rewrite interrupt_length in Hn.
        simpl in Hn. rewrite length_app in Hn. simpl in Hn. lia. }
      rewrite Hnew in Hn. now injection Hn as <-.
    + rewrite Hon. f_equal. f_equal. congruence.
    + rewrite Hnew. unfold stop. simpl. f_equal. f_equal. congruence.
Qed.

Lemma chunk_then_interruption_witness :
  let s := fst (onmessage 0 (audioChunk threeFrames) (activeSession true)) in
  let m := mkMessage None None false (InlineData threeFrames) true in
  sourcesRef (sched (fst (onmessage (1 # 4) m s))) = ∅ /\
  nodes (sched (fst (onmessage (1 # 4) m s))) !! 1%nat
    = Some (mkSource (mkAudioBuffer [0 # 32768; 0 # 32768; 0 # 32768]%Q 24000)
                     (Math_max (3 # 24000) (1 # 4)) true).
Proof.
  intros s m.
  destruct (chunk_then_interruption s (1 # 4) m eq_refl eq_refl)
    as (Hsrc & _ & _ & _ & Hchunk).
  split; [exact Hsrc |].
  exact (proj2 (Hchunk threeFrames _ eq_refl eq_refl eq_refl)).
Defined.

(** C10.  The handler runs its statements in the order transcript,
    turn-complete, audio block, interruption, on every message, but the
    interruption only if the audio block raises nothing: the promise of
    the handler resolves, and the state is that of the four statements in
    order, unless the first part of the model turn has no [inlineData]
    (TypeError) or its chunk does not decode; then the promise rejects
    and the state is that of the first three statements.  So an
    interruption carried by a message that resolves empties the set of
    sources, resets the cursor and stops the source that the same message
    has just enqueued, while an interruption carried by a message that
    rejects is lost: the set of sources and the nodes are as before.
    With one source playing, an interruption that comes with a part
    without [inlineData], or with a chunk of three bytes, leaves that
    source in the set, not stopped; with a chunk of three frames, or
    alone, it stops every source. *)
Theorem interruption_lost_on_rejection :
  (forall now m s,
     let s3 := audioPart now m (turnCompletePart m (transcriptionPart m s)) in
     snd (onmessage now m s) = audioOutcome m /\
     match audioOutcome m with
     | Resolved => fst (onmessage now m s) = interruptedPart m s3
     | Rejected _ => fst (onmessage now m s) = s3
     end) /\
  (forall now m s,
     let s' := fst (onmessage now m s) in
     match audioOutcome m, interrupted m with
     | Resolved, true =>
         sourcesRef (sched s') = ∅ /\ nextStartTimeRef (sched s') = 0%Q /\
         Forall (fun n => stopped n = true)
                (drop (length (nodes (sched s))) (nodes (sched s')))
     | Resolved, false =>
         sourcesRef (sched s) ⊆ sourcesRef (sched s') /\
         nodes (sched s) `prefix_of` nodes (sched s')
     | Rejected _, _ =>
         sourcesRef (sched s') = sourcesRef (sched s) /\
         nodes (sched s') = nodes (sched s)
     end) /\
  (let playing := fst (onmessage 0 (audioChunk threeFrames) (activeSession true)) in
   let after m := onmessage (1 # 4) m playing in
   let textPart := mkMessage None None false PartWithoutInlineData true in
   let badChunk := mkMessage None None false (InlineData oddBytes) true in
   let goodChunk := mkMessage None None false (InlineData threeFrames) true in
   elements (sourcesRef (sched playing)) = [0%nat] /\
   stopped <$> nodes (sched playing) = [false] /\
   (snd (after textPart) = Rejected TypeError /\
    elements (sourcesRef (sched (fst (after textPart)))) = [0%nat] /\
    stopped <$> nodes (sched (fst (after textPart))) = [false]) /\
   (snd (after badChunk) = Rejected MalformedFrame /\
    elements (sourcesRef (sched (fst (after badChunk)))) = [0%nat] /\
    stopped <$> nodes (sched (fst (after badChunk))) = [false]) /\
   (snd (after goodChunk) = Resolved /\
    elements (sourcesRef (sched (fst (after goodChunk)))) = [] /\
    stopped <$> nodes (sched (fst (after goodChunk))) = [true; true]) /\
   (snd (after interruption) = Resolved /\
    elements (sourcesRef (sched (fst (after interruption)))) = [] /\
    stopped <$> nodes (sched (fst (after interruption))) = [true])).
Proof.
  split; [|split].
  - intros now m s s3. subst s3. rewrite onmessage_parts. cbv zeta.
    destruct (audioOutcome m); split; reflexivity.
  - intros now m s s'. subst s'. rewrite onmessage_parts. cbv zeta.
    destruct (before_audio m s) as (Hs & _).
    set (s2 := turnCompletePart m (transcriptionPart m s)) in *.
    pose proof (audioPart_sched now m s2) as Hcases. rewrite Hs in Hcases.
    destruct (audioOutcome m) as [|e]; cbn [fst].
    + unfold interruptedPart.
      assert (Hi : forall s3, sched (with_sched interrupt s3) = interrupt (sched s3))
        by (now intros []).
      destruct (interrupted m).
      * rewrite Hi. split; [reflexivity|]. split; [reflexivity|].
        destruct Hcases as [-> | (b & ->)].
        -- rewrite <- interrupt_length, drop_all. constructor.
        -- rewrite interrupt_new_stopped. now constructor.
      * destruct Hcases as [-> | (b & ->)]; [split; reflexivity|].
        split; [simpl; set_solver | now apply prefix_app_r].
    + destruct (interrupted m); exact Hcases.
  - vm_compute. repeat split.
Qed.

(** ** Start, stop and the transport callbacks *)

Section ResourceFacts.

Lemma count_app (p : Effect -> bool) (l l' : list Effect) :
  count p (l ++ l') = (count p l + count p l')%nat.
Proof. unfold count. now rewrite List.filter_app, length_app. Qed.

Lemma startSession_no_key_selector (env : StartEnv) (s : State) :
  count isOpenSelectKey (log (platform (startSession env s)))
    = count isOpenSelectKey (log (platform s)).
Proof.
  destruct env as [[|] [|name msg] [|msg']]; unfold startSession; simpl;
    rewrite ?count_app; unfold count; simpl; lia.
Qed.

Lemma startSession_calls_getUserMedia (md : MediaOutcome) (cn : ConnectOutcome) (s : State) :
  count isGetUserMedia (log (platform (startSession (mkStartEnv true md cn) s)))
    = S (count isGetUserMedia (log (platform s))).
Proof.
  destruct md as [|name msg], cn as [|msg']; unfold startSession; simpl;
    rewrite ?count_app; unfold count; simpl; lia.
Qed.

Lemma startSession_studio (env : StartEnv) (f : Studio -> Studio) (s : State) :
  startSession env (with_studio f s) = with_studio f (startSession env s).
Proof.
  destruct env as [[|] [|name msg] [|msg']]; reflexivity.
Qed.

Lemma stopSession_platform_cases (s : State) :
  platform (stopSession s)
    = let p1 := match sessionRef (refs s) with
                | Some k => closeConnection k (platform s)
                | None => platform s
                end in
      let p2 := match audioContextRef (refs s) with
                | Some c => closeContext c p1
                | None => p1
                end in
      match outputAudioContextRef (refs s) with
      | Some c => closeContext c p2
      | None => p2
      end.
Proof.
  destruct s as [u a sc [[k|] [c|] [o|]] p st]; reflexivity.
Qed.

Lemma closeContext_connections (c : nat) (p : Platform) :
  connections (closeContext c p) = connections p.
Proof.
  unfold closeContext. destruct (contexts p !! c) as [[|]|]; reflexivity.
Qed.

Lemma closeContext_not_running (c c' : nat) (p : Platform) :
  contexts p !! c' <> Some Running ->
  contexts (closeContext c p) !! c' <> Some Running.
Proof.
  intros H. unfold closeContext.
  destruct (contexts p !! c) as [[|]|] eqn:E; simpl; try exact H.
  destruct (decide (c = c')) as [->|Hne].
  - rewrite list_lookup_insert_eq; [discriminate|].
    now apply lookup_lt_Some in E.
  - now rewrite list_lookup_insert_ne.
Qed.

Lemma closeContext_closed (c : nat) (p : Platform) :
  contexts (closeContext c p) !! c <> Some Running.
Proof.
  unfold closeContext.
  destruct (contexts p !! c) as [[|]|] eqn:E; simpl.
  - rewrite list_lookup_insert_eq; [discriminate|].
    now apply lookup_lt_Some in E.
  - rewrite E. discriminate.
  - rewrite E. discriminate.
Qed.

Lemma closeContext_again (c : nat) (p : Platform) :
  contexts p !! c <> Some Running ->
  contexts (closeContext c p) = contexts p.
Proof.
  intros H. unfold closeContext.
  destruct (contexts p !! c) as [[|]|]; simpl; congruence.
Qed.

(** The parts of the component's state that a second [stopSession] leaves
    as the first one made them: everything but the log. *)
Lemma stopSession_twice_state (s : State) :
  ui (stopSession (stopSession s)) = ui (stopSession s) /\
  agg (stopSession (stopSession s)) = agg (stopSession s) /\
  sched (stopSession (stopSession s)) = sched (stopSession s) /\
  refs (stopSession (stopSession s)) = refs (stopSession s) /\
  studio (stopSession (stopSession s)) = studio (stopSession s) /\
  connections (platform (stopSession (stopSession s)))
    = connections (platform (stopSession s)) /\
  contexts (platform (stopSession (stopSession s)))
    = contexts (platform (stopSession s)).
Proof.
  destruct (stopSession_frame s) as (Ha & Hs & Ht & Hr).
  destruct (stopSession_frame (stopSession s)) as (Ha' & Hs' & Ht' & Hr').
  split; [now rewrite !stopSession_ui|].
  split; [exact Ha'|]. split; [exact Hs'|].
  split; [now rewrite Hr', Hr|].
  split; [exact Ht'|].
  rewrite (stopSession_platform_cases (stopSession s)), Hr.
  cbn [sessionRef audioContextRef outputAudioContextRef].
  rewrite (stopSession_platform_cases s).
  destruct (audioContextRef (refs s)) as [c|], (outputAudioContextRef (refs s)) as [o|];
    cbn zeta; rewrite ?closeContext_connections; split; try reflexivity.
  - match goal with |- contexts (closeContext o (closeContext c ?P)) = _ =>
      assert (Hc : contexts P !! c <> Some Running)
        by apply closeContext_not_running, closeContext_closed;
      assert (Ho : contexts P !! o <> Some Running)
        by apply closeContext_closed
    end.
    rewrite closeContext_again; [now apply closeContext_again |].
    now rewrite closeContext_again.
  - apply closeContext_again, closeContext_closed.
  - apply closeContext_again, closeContext_closed.
Qed.

Lemma stopSession_closes_session (s : State) (k : nat) :
  sessionRef (refs s) = Some k ->
  count (isSessionClose k) (log (platform (stopSession s)))
    = S (count (isSessionClose k) (log (platform s))).
Proof.
  intros Hk. rewrite stopSession_platform_cases, Hk. cbn zeta.
  assert (Hc : forall c p, count (isSessionClose k) (log (closeContext c p))
                           = count (isSessionClose k) (log p)).
  { intros c p. unfold closeContext.
    destruct (contexts p !! c) as [[|]|]; simpl; rewrite ?count_app;
      unfold count; simpl; lia. }
  destruct (audioContextRef (refs s)), (outputAudioContextRef (refs s));
    rewrite ?Hc; simpl; rewrite count_app; unfold count; simpl;
    rewrite Nat.eqb_refl; simpl; lia.
Qed.

Lemma stopSession_contexts_closed (s : State) (c : nat) :
  audioContextRef (refs s) = Some c \/ outputAudioContextRef (refs s) = Some c ->
  contexts (platform (stopSession s)) !! c <> Some Running.
Proof.
  rewrite stopSession_platform_cases. cbn zeta.
  intros [Hc | Hc]; rewrite Hc.
  - destruct (outputAudioContextRef (refs s)).
    + apply closeContext_not_running, closeContext_closed.
    + apply closeContext_closed.
  - apply closeContext_closed.
Qed.

Lemma closeContext_length (c : nat) (p : Platform) :
  length (contexts (closeContext c p)) = length (contexts p).
Proof.
  unfold closeContext. destruct (contexts p !! c) as [[|]|]; simpl;
    rewrite ?length_insert; reflexivity.
Qed.

Lemma closeContext_count_le (q : Effect -> bool) (c : nat) (p : Platform) :
  (count q (log p) <= count q (log (closeContext c p)))%nat.
Proof.
  unfold closeContext. destruct (contexts p !! c) as [[|]|]; simpl;
    rewrite ?count_app; lia.
Qed.

Lemma closeContext_count (c : nat) (p : Platform) :
  (c < length (contexts p))%nat ->
  count (isContextClose c) (log (closeContext c p))
    = S (count (isContextClose c) (log p)).
Proof.
  intros Hc. apply lookup_lt_is_Some in Hc. destruct Hc as [st Hst].
  unfold closeContext. rewrite Hst.
  destruct st; simpl; rewrite count_app; unfold count; simpl;
    rewrite Nat.eqb_refl; simpl; lia.
Qed.

(** One [stopSession] calls [close()] on the context of the input ref at
    least once, and keeps the ref and the context allocated. *)
Lemma stopSession_closes_input (s : State) (c : nat) :
  audioContextRef (refs s) = Some c ->
  (c < length (contexts (platform s)))%nat ->
  (S (count (isContextClose c) (log (platform s)))
     <= count (isContextClose c) (log (platform (stopSession s))))%nat /\
  (c < length (contexts (platform (stopSession s))))%nat /\
  audioContextRef (refs (stopSession s)) = Some c.
Proof.
  intros Hc Hlt.
  destruct (stopSession_frame s) as (_ & _ & _ & Hr).
  rewrite Hr, stopSession_platform_cases, Hc. cbn zeta.
  assert (H1 : forall p, (c < length (contexts p))%nat ->
             (S (count (isContextClose c) (log p))
                <= count (isContextClose c)
                     (log match outputAudioContextRef (refs s) with
                          | Some o => closeContext o (closeContext c p)
                          | None => closeContext c p
                          end))%nat /\
             (c < length (contexts match outputAudioContextRef (refs s) with
                                   | Some o => closeContext o (closeContext c p)
                                   | None => closeContext c p
                                   end))%nat).
  { intros p Hp. pose proof (closeContext_count c p Hp) as E.
    destruct (outputAudioContextRef (refs s)) as [o|].
    - pose proof (closeContext_count_le (isContextClose c) o (closeContext c p)).
      rewrite !closeContext_length. lia.
    - rewrite closeContext_length. lia. }
  destruct (sessionRef (refs s)) as [k|].
  - destruct (H1 (closeConnection k (platform s))) as (Hle & Hlen); [exact Hlt|].
    split; [|split; [exact Hlen | reflexivity]].
    etransitivity; [|exact Hle]. simpl. rewrite count_app. lia.
  - destruct (H1 (platform s) Hlt) as (Hle & Hlen). auto.
Qed.

(** Two calls in a row call [close()] on that context at least twice. *)
Lemma stopSession_twice_closes_input_twice (s : State) (c : nat) :
  audioContextRef (refs s) = Some c ->
  (c < length (contexts (platform s)))%nat ->
  (2 + count (isContextClose c) (log (platform s))
     <= count (isContextClose c) (log (platform (stopSession (stopSession s)))))%nat.
Proof.
  intros Hc Hlt.
  destruct (stopSession_closes_input s c Hc Hlt) as (H1 & Hlt' & Hc').
  destruct (stopSession_closes_input (stopSession s) c Hc' Hlt') as (H2 & _).
  lia.
Qed.

End ResourceFacts.

(** C1 (as amended).  A start does not consult the authorization state:
    it commutes with any change of the key flags, never calls the key
    selector, calls [getUserMedia] whenever the browser supports capture,
    and ends up active when the microphone is granted and the connection
    opens.  The gate is in [generateVideo]: with no key selected it only
    opens the key selector (if there is one) and starts no generation. *)
Theorem startSession_ignores_authorization (env : StartEnv) (s : State)
    (f : Studio -> Studio) :
  startSession env (with_studio f s) = with_studio f (startSession env s) /\
  count isOpenSelectKey (log (platform (startSession env s)))
    = count isOpenSelectKey (log (platform s)) /\
  (forall md cn,
     count isGetUserMedia (log (platform (startSession (mkStartEnv true md cn) s)))
       = S (count isGetUserMedia (log (platform s)))) /\
  sessionState (startSession workingEnv s) = Active /\
  (forall outcome g,
     let s0 := with_studio (fun _ => mkStudio false g) s in
     generateVideo true outcome s0
       = with_studio (setIsKeySelected true) (with_platform (emit OpenSelectKey) s0) /\
     generateVideo false outcome s0 = s0).
Proof.
  split; [apply startSession_studio|].
  split; [apply startSession_no_key_selector|].
  split; [intros md cn; apply startSession_calls_getUserMedia|].
  split; [reflexivity|].
  intros outcome g s0. split; reflexivity.
Qed.

(** C1 fails as stated: with no key selected, a start in a working
    browser acquires the microphone, opens the connection and is active;
    the key selector is not called. *)
Lemma unauthorized_start_goes_active :
  let s := startSession workingEnv (initialState false) in
  isKeySelected (studio s) = false /\
  sessionState s = Active /\
  log (platform s)
    = [GetUserMedia true; NewAudioContext 0 16000; NewAudioContext 1 24000;
       LiveConnect; CaptureGraphConnected 0] /\
  count isOpenSelectKey (log (platform s)) = 0%nat.
Proof. repeat split. Qed.

(** C7, evaluated on an active session.  The first [stopSession] closes
    the connection and both contexts; the second one finds the session
    ref cleared but the context refs still set, calls [close()] on both
    closed contexts again, and both calls are rejected.  The state apart
    from the log is the same after one call and after two (in general:
    [stopSession_twice_state]), and a stop before any start changes
    nothing. *)
Theorem stopSession_twice_recloses_contexts :
  let s := activeSession true in
  sessionState s = Active /\
  log (platform (stopSession s))
    = log (platform s)
      ++ [SessionClose 0; ContextClose 0 CloseResolved; ContextClose 1 CloseResolved] /\
  log (platform (stopSession (stopSession s)))
    = log (platform (stopSession s))
      ++ [ContextClose 0 InvalidStateError; ContextClose 1 InvalidStateError] /\
  count (isSessionClose 0) (log (platform (stopSession (stopSession s)))) = 1%nat /\
  count (isContextClose 0) (log (platform (stopSession (stopSession s)))) = 2%nat /\
  count (isContextClose 1) (log (platform (stopSession (stopSession s)))) = 2%nat /\
  sessionState (stopSession (stopSession s)) = sessionState (stopSession s) /\
  stopSession (initialState true) = initialState true.
Proof. repeat split. Qed.

(** C8 (as amended).  A transport error records its message, runs the
    teardown of [stopSession] and leaves the session errored with a start
    offered.  A close runs the same teardown and records nothing: the
    error is as it was, so a session that had none shows as idle, with a
    start offered.  The teardown clears the session ref, closes the
    connection it held once and leaves no context of the refs running;
    a start in a working browser then gives an active session again. *)
Theorem transport_error_and_close (s : State) :
  (error (ui (onerror s)) = Some "Connection lost. Please try again."%string /\
   sessionState (onerror s) = Errored /\
   offered (onerror s) = Some DoStart /\
   refs (onerror s) = refs (stopSession s) /\
   platform (onerror s) = platform (stopSession s)) /\
  (onclose s = stopSession s /\
   error (ui (onclose s)) = error (ui s) /\
   sessionState (onclose s)
     = match error (ui s) with Some _ => Errored | None => Idle end /\
   offered (onclose s) = Some DoStart) /\
  (sessionRef (refs (stopSession s)) = None /\
   (forall k, sessionRef (refs s) = Some k ->
      count (isSessionClose k) (log (platform (stopSession s)))
        = S (count (isSessionClose k) (log (platform s)))) /\
   (forall c, audioContextRef (refs s) = Some c \/ outputAudioContextRef (refs s) = Some c ->
      contexts (platform (stopSession s)) !! c <> Some Running)) /\
  (sessionState (startSession workingEnv (onerror s)) = Active /\
   sessionState (startSession workingEnv (onclose s)) = Active).
Proof.
  destruct (stopSession_frame s) as (_ & _ & _ & Hr).
  split; [|split; [|split]].
  - unfold onerror. unfold sessionState, offered. rewrite stopSession_ui. simpl.
    repeat split; now destruct s as [u a sc [[k|] [c|] [o|]] p st].
  - unfold onclose. unfold sessionState, offered. rewrite stopSession_ui. simpl.
    repeat split; now destruct (error (ui s)).
  - rewrite Hr. split; [reflexivity|]. split.
    + apply stopSession_closes_session.
    + apply stopSession_contexts_closed.
  - split; reflexivity.
Qed.

Lemma transport_error_and_close_witness :
  count (isSessionClose 0) (log (platform (stopSession (activeSession true)))) = 1%nat /\
  contexts (platform (stopSession (activeSession true))) !! 1%nat <> Some Running.
Proof.
  destruct (transport_error_and_close (activeSession true))
    as (_ & _ & (_ & Hk & Hc) & _).
  split; [exact (Hk 0%nat eq_refl) | apply Hc; right; reflexivity].
Defined.

(** C8 fails as stated: a close that arrives on an active session leaves
    no error and the session shows as idle, not errored. *)
Lemma remote_close_is_silent :
  let s := activeSession true in
  sessionState s = Active /\
  error (ui (onclose s)) = None /\
  sessionState (onclose s) = Idle.
Proof. repeat split. Qed.

(** The full-scale sample 1.0 is stored as -32768. *)
Example sampleToPCM16_full_scale : Codec.floatSamplesToPCM16 [1%Q] = [-32768].
Proof. reflexivity. Qed.

(** A first part without inline data raises before the flush as well. *)
Example part_without_inlineData_rejects :
  let s := fst (onmessage 0 (audioChunk threeFrames) (activeSession true)) in
  let m := mkMessage None None false PartWithoutInlineData true in
  snd (onmessage (1 # 4) m s) = Rejected TypeError /\
  elements (sourcesRef (sched (fst (onmessage (1 # 4) m s)))) = [0%nat].
Proof. vm_compute. repeat split. Qed.

(** The statements of the handler run in order: the text a message
    carries is part of the turn that the same message completes. *)
Example onmessage_text_then_turn :
  transcription (ui (fst (onmessage 0 (mkMessage (Some "Hello"%string) None true NoPart false)
                                    (activeSession true))))
    = [mkItem model "Hello"].
Proof. reflexivity. Qed.

(** * Further properties *)

(** ** Invariants of the session *)

Section SessionInvariants.

(** What the handler can have done to the scheduler. *)
Lemma onmessage_sched_cases (now : Q) (m : ServerMessage) (s : State) :
  let sc := sched s in
  let sc' := sched (fst (onmessage now m s)) in
  sc' = sc \/ sc' = syncCursor now sc \/ sc' = interrupt sc \/
  exists b, sc' = enqueue now b sc \/ sc' = interrupt (enqueue now b sc).
Proof.
  intros sc sc'. subst sc sc'.
  destruct (before_audio m s) as (Hs & _).
  unfold onmessage, interruptedPart.
  destruct (modelTurn m) as [| |d]; simpl.
  - destruct (interrupted m); simpl; rewrite Hs; auto.
  - rewrite Hs; auto.
  - destruct (truthy d); [destruct (decodeChunk d) as [b|]|];
      try destruct (interrupted m); simpl; rewrite Hs; eauto 6.
Qed.

Lemma onmessage_agg (now : Q) (m : ServerMessage) (s : State) :
  agg (fst (onmessage now m s)) = agg (turnCompletePart m (transcriptionPart m s)).
Proof.
  unfold onmessage, interruptedPart.
  destruct (modelTurn m) as [| |d]; simpl;
    [ | | destruct (truthy d); [destruct (decodeChunk d)|] ];
    try destruct (interrupted m); reflexivity.
Qed.

Lemma closeContext_other (c c' : nat) (p : Platform) :
  c <> c' -> contexts (closeContext c' p) !! c = contexts p !! c.
Proof.
  intros Hne. unfold closeContext.
  destruct (contexts p !! c') as [[|]|]; simpl; try reflexivity.
  apply list_lookup_insert_ne. congruence.
Qed.

Lemma stopSession_contexts_length (s : State) :
  length (contexts (platform (stopSession s))) = length (contexts (platform s)).
Proof.
  rewrite stopSession_platform_cases. cbn zeta.
  destruct (sessionRef (refs s)), (audioContextRef (refs s)),
    (outputAudioContextRef (refs s)); now rewrite ?closeContext_length.
Qed.

Lemma stopSession_other_context (s : State) (c : nat) :
  audioContextRef (refs s) <> Some c -> outputAudioContextRef (refs s) <> Some c ->
  contexts (platform (stopSession s)) !! c = contexts (platform s) !! c.
Proof.
  intros Ha Ho. rewrite stopSession_platform_cases. cbn zeta.
  destruct (audioContextRef (refs s)) as [a|], (outputAudioContextRef (refs s)) as [o|],
    (sessionRef (refs s)) as [k|];
    rewrite ?closeContext_other by congruence; reflexivity.
Qed.

(** The refs after a start that got the microphone. *)
Lemma startSession_granted (cn : ConnectOutcome) (s : State) :
  let s' := startSession (mkStartEnv true StreamGranted cn) s in
  let n := length (contexts (platform s)) in
  audioContextRef (refs s') = Some n /\
  outputAudioContextRef (refs s') = Some (S n) /\
  contexts (platform s') = contexts (platform s) ++ [Running; Running].
Proof. destruct cn; repeat split. Qed.

Lemma startSession_not_granted (env : StartEnv) (s : State) :
  mediaDevicesSupported env = false \/ (exists name msg, media env = MediaRejected name msg) ->
  refs (startSession env s) = refs s /\
  contexts (platform (startSession env s)) = contexts (platform s) /\
  connections (platform (startSession env s)) = connections (platform s) /\
  isActive (ui (startSession env s)) = isActive (ui s).
Proof.
  intros [H | (name & msg & H)]; unfold startSession; rewrite H; simpl.
  - repeat split.
  - destruct (mediaDevicesSupported env); repeat split.
Qed.

Lemma startEnv_cases (env : StartEnv) :
  (mediaDevicesSupported env = false \/ exists name msg, media env = MediaRejected name msg) \/
  exists cn, env = mkStartEnv true StreamGranted cn.
Proof.
  destruct env as [[|] [|name msg] cn]; simpl; eauto 6.
Qed.

(** A running context that no ref holds is out of reach: an event leaves
    it running, and no ref ever gets to hold it. *)
Lemma step_keeps_orphan (s : State) (e : Event) (c : nat) :
  contexts (platform s) !! c = Some Running ->
  audioContextRef (refs s) <> Some c ->
  outputAudioContextRef (refs s) <> Some c ->
  contexts (platform (step s e)) !! c = Some Running /\
  audioContextRef (refs (step s e)) <> Some c /\
  outputAudioContextRef (refs (step s e)) <> Some c.
Proof.
  intros Hc Ha Ho.
  assert (Hstop : forall s0, refs s0 = refs s -> platform s0 = platform s ->
            contexts (platform (stopSession s0)) !! c = Some Running /\
            audioContextRef (refs (stopSession s0)) <> Some c /\
            outputAudioContextRef (refs (stopSession s0)) <> Some c).
  { intros s0 Hr Hp.
    destruct (stopSession_frame s0) as (_ & _ & _ & Hr').
    rewrite Hr', stopSession_other_context, Hr, Hp by (rewrite Hr; assumption).
    auto. }
  destruct e as [env| |now m| | |id]; unfold step.
  - destruct (startEnv_cases env) as [Hfail | (cn & ->)].
    + destruct (startSession_not_granted env s Hfail) as (-> & -> & _). auto.
    + destruct (startSession_granted cn s) as (-> & -> & ->).
      pose proof (lookup_lt_Some _ _ _ Hc) as Hlt.
      rewrite lookup_app_l by exact Hlt.
      repeat split; [assumption | |]; intros E; injection E; lia.
  - now apply Hstop.
  - destruct (onmessage_frame now m s) as (_ & _ & _ & -> & -> & _). auto.
  - unfold onerror. now apply Hstop.
  - unfold onclose. now apply Hstop.
  - auto.
Qed.

Lemma run_snoc (es : list Event) (e : Event) (s : State) :
  run (es ++ [e]) s = step (run es s) e.
Proof. unfold run. now rewrite fold_left_app. Qed.

End SessionInvariants.

(** X3.  A running audio context that neither context ref holds stays
    running, and unheld, through every sequence of events: nothing can
    close it any more.  (Each start in a sequence runs to its end before
    the next event.) *)
Theorem orphan_context_never_closed (es : list Event) (s : State) (c : nat) :
  contexts (platform s) !! c = Some Running ->
  audioContextRef (refs s) <> Some c ->
  outputAudioContextRef (refs s) <> Some c ->
  contexts (platform (run es s)) !! c = Some Running /\
  audioContextRef (refs (run es s)) <> Some c /\
  outputAudioContextRef (refs (run es s)) <> Some c.
Proof.
  intros Hc Ha Ho.
  induction es as [|e es IH] using rev_ind; [auto|].
  rewrite run_snoc. destruct IH as (Hc' & Ha' & Ho').
  now apply step_keeps_orphan.
Qed.

(** A second start without a stop in between orphans the contexts of the
    first: a stop, an error and a close later, context 0 is still
    running. *)
Lemma orphan_context_never_closed_witness :
  contexts (platform (run [Stop; TransportError; TransportClose]
                          (startSession workingEnv (activeSession true)))) !! 0%nat
    = Some Running /\
  audioContextRef (refs (run [Stop; TransportError; TransportClose]
                             (startSession workingEnv (activeSession true)))) <> Some 0%nat /\
  outputAudioContextRef (refs (run [Stop; TransportError; TransportClose]
                                   (startSession workingEnv (activeSession true)))) <> Some 0%nat.
Proof.
  apply (orphan_context_never_closed [Stop; TransportError; TransportClose]
           (startSession workingEnv (activeSession true)) 0%nat);
    [reflexivity | discriminate | discriminate].
Defined.

Section ReachableStates.

Lemma closeConnection_contexts (k : nat) (p : Platform) :
  contexts (closeConnection k p) = contexts p.
Proof. reflexivity. Qed.

Lemma stopSession_refsReady (s : State) :
  refsReady s -> refsReady (stopSession s).
Proof.
  intros (Hctx & _). unfold refsReady.
  destruct (stopSession_frame s) as (_ & _ & _ & Hr).
  rewrite Hr, stopSession_ui, stopSession_contexts_length. simpl.
  split; [|exact I].
  destruct (audioContextRef (refs s)) as [a|], (outputAudioContextRef (refs s)) as [b|];
    try contradiction; [|reflexivity].
  destruct Hctx as (Hb & Hlt & _). repeat split; try assumption; discriminate.
Qed.

Lemma stopSession_refsReady_ui (f : Ui -> Ui) (s : State) :
  refsReady s -> refsReady (stopSession (with_ui f s)).
Proof.
  intros (Hctx & _). unfold refsReady.
  destruct (stopSession_frame (with_ui f s)) as (_ & _ & _ & Hr).
  rewrite Hr, stopSession_ui, stopSession_contexts_length. simpl.
  split; [|exact I].
  destruct (audioContextRef (refs s)) as [a|], (outputAudioContextRef (refs s)) as [b|];
    try contradiction; [|reflexivity].
  destruct Hctx as (Hb & Hlt & _). repeat split; try assumption; discriminate.
Qed.

Lemma startSession_refsReady (env : StartEnv) (s : State) :
  refsReady s -> refsReady (startSession env s).
Proof.
  intros Hs.
  destruct (startEnv_cases env) as [Hfail | (cn & ->)].
  - destruct (startSession_not_granted env s Hfail) as (Hr & Hc & Hk & Ha).
    unfold refsReady. rewrite Hr, Hc, Hk, Ha. exact Hs.
  - destruct (startSession_granted cn s) as (Ha & Ho & Hc).
    unfold refsReady. rewrite Ha, Ho, Hc. split.
    + split; [reflexivity|]. rewrite length_app. simpl. split; [lia|].
      intros _. split.
      * now rewrite lookup_app_r, Nat.sub_diag by lia.
      * rewrite lookup_app_r by lia.
        now replace (S (length (contexts (platform s))) - length (contexts (platform s)))%nat
          with 1%nat by lia.
    + destruct Hs as (_ & Hk). destruct cn as [|msg]; simpl.
      * now rewrite lookup_app_r, Nat.sub_diag by lia.
      * exact Hk.
Qed.

Lemma step_refsReady (s : State) (e : Event) :
  refsReady s -> refsReady (step s e).
Proof.
  intros Hs. destruct e as [env| |now m| | |id]; unfold step.
  - now apply startSession_refsReady.
  - now apply stopSession_refsReady.
  - destruct (onmessage_frame now m s) as (Ha & _ & _ & Hr & Hp & _).
    unfold refsReady. rewrite Ha, Hr, Hp. exact Hs.
  - unfold onerror. now apply stopSession_refsReady_ui.
  - unfold onclose. now apply stopSession_refsReady.
  - exact Hs.
Qed.

End ReachableStates.

(** X4.  In every state reached from the mounted component the refs fit
    the browser objects; in particular, while the session is active the
    output context that [onmessage] dereferences is set and running, and
    it is not the input context.  (Each start in a sequence runs to its
    end before the next event.) *)
Theorem reachable_refsReady (es : list Event) (keySelected : bool) :
  let s := run es (initialState keySelected) in
  refsReady s /\
  (isActive (ui s) = true ->
   exists a b,
     audioContextRef (refs s) = Some a /\ outputAudioContextRef (refs s) = Some b /\
     a <> b /\
     contexts (platform s) !! a = Some Running /\
     contexts (platform s) !! b = Some Running).
Proof.
  intros s.
  assert (Hs : refsReady s).
  { subst s. induction es as [|e es IH] using rev_ind.
    - repeat split.
    - rewrite run_snoc. now apply step_refsReady. }
  split; [exact Hs|].
  intros Hact. destruct Hs as (Hctx & _).
  destruct (audioContextRef (refs s)) as [a|], (outputAudioContextRef (refs s)) as [b|];
    try contradiction; [|congruence].
  destruct Hctx as (Hb & _ & Hrun). destruct (Hrun Hact) as (Hra & Hrb).
  exists a, b. repeat split; try assumption. lia.
Qed.

Lemma reachable_refsReady_witness :
  exists a b,
    audioContextRef (refs (run [Start workingEnv; Message 0 interruption]
                               (initialState true))) = Some a /\
    outputAudioContextRef (refs (run [Start workingEnv; Message 0 interruption]
                                     (initialState true))) = Some b /\
    a <> b /\
    contexts (platform (run [Start workingEnv; Message 0 interruption]
                            (initialState true))) !! a = Some Running /\
    contexts (platform (run [Start workingEnv; Message 0 interruption]
                            (initialState true))) !! b = Some Running.
Proof.
  exact (proj2 (reachable_refsReady [Start workingEnv; Message 0 interruption] true)
               eq_refl).
Defined.

(** ** Invariants of the scheduler *)

Section SchedulerInvariants.

Lemma syncCursor_live (now : Q) (sc : Scheduler) :
  sourcesLive sc -> sourcesLive (syncCursor now sc).
Proof. intros H i Hi. exact (H i Hi). Qed.

Lemma schedule_live (b : AudioBuffer) (sc : Scheduler) :
  sourcesLive sc -> sourcesLive (schedule b sc).
Proof.
  intros H i Hi. simpl in Hi. apply elem_of_union in Hi as [Hi | Hi].
  - apply elem_of_singleton in Hi as ->. simpl.
    rewrite lookup_app_r, Nat.sub_diag by lia. eauto.
  - destruct (H i Hi) as (n & Hn & Hst). exists n. simpl.
    split; [now apply lookup_app_l_Some | exact Hst].
Qed.

Lemma interrupt_live (sc : Scheduler) : sourcesLive (interrupt sc).
Proof. intros i Hi. simpl in Hi. set_solver. Qed.

Lemma onended_live (id : nat) (sc : Scheduler) :
  sourcesLive sc -> sourcesLive (onended id sc).
Proof.
  intros H i Hi. simpl in Hi. apply elem_of_difference in Hi as [Hi _].
  exact (H i Hi).
Qed.

Lemma step_live (s : State) (e : Event) :
  sourcesLive (sched s) -> sourcesLive (sched (step s e)).
Proof.
  intros H. destruct e as [env| |now m| | |id]; unfold step.
  - destruct (startSession_frame env s) as (_ & -> & _). exact H.
  - destruct (stopSession_frame s) as (_ & -> & _). exact H.
  - destruct (onmessage_sched_cases now m s) as [-> | [-> | [-> | (b & [-> | ->])]]].
    + exact H.
    + now apply syncCursor_live.
    + apply interrupt_live.
    + now apply schedule_live, syncCursor_live.
    + apply interrupt_live.
  - unfold onerror. destruct (stopSession_frame (with_ui (setError (Some "Connection lost. Please try again."%string)) s)) as (_ & -> & _).
    exact H.
  - unfold onclose. destruct (stopSession_frame s) as (_ & -> & _). exact H.
  - now apply onended_live.
Qed.

Lemma interrupt_keeps (sc : Scheduler) (i : nat) (n : SourceNode) :
  nodes sc !! i = Some n ->
  exists n', nodes (interrupt sc) !! i = Some n' /\ sameSource n n'.
Proof.
  intros Hn. rewrite (interrupt_nodes sc i n Hn).
  eexists. split; [reflexivity|].
  destruct (bool_decide (i ∈ sourcesRef sc)); repeat split; auto.
Qed.

Lemma sameSource_refl (n : SourceNode) : sameSource n n.
Proof. repeat split; auto. Qed.

Lemma sameSource_trans (n1 n2 n3 : SourceNode) :
  sameSource n1 n2 -> sameSource n2 n3 -> sameSource n1 n3.
Proof.
  intros (Hb & Ht & Hs) (Hb' & Ht' & Hs'). repeat split; try congruence. auto.
Qed.

Lemma enqueue_keeps (now : Q) (b : AudioBuffer) (sc : Scheduler) (i : nat) (n : SourceNode) :
  nodes sc !! i = Some n -> nodes (enqueue now b sc) !! i = Some n.
Proof. intros Hn. simpl. now apply lookup_app_l_Some. Qed.

Lemma step_keeps_source (s : State) (e : Event) (i : nat) (n : SourceNode) :
  nodes (sched s) !! i = Some n ->
  exists n', nodes (sched (step s e)) !! i = Some n' /\ sameSource n n'.
Proof.
  intros Hn.
  assert (Hsame : forall sc', sc' = sched s ->
            exists n', nodes sc' !! i = Some n' /\ sameSource n n')
    by (intros sc' ->; exists n; split; [exact Hn | apply sameSource_refl]).
  destruct e as [env| |now m| | |id]; unfold step.
  - apply Hsame. now destruct (startSession_frame env s) as (_ & -> & _).
  - apply Hsame. now destruct (stopSession_frame s) as (_ & -> & _).
  - destruct (onmessage_sched_cases now m s) as [-> | [-> | [-> | (b & [-> | ->])]]].
    + now apply Hsame.
    + exists n. split; [exact Hn | apply sameSource_refl].
    + now apply interrupt_keeps.
    + exists n. split; [now apply enqueue_keeps | apply sameSource_refl].
    + apply interrupt_keeps. now apply enqueue_keeps.
  - apply Hsame. unfold onerror.
    now destruct (stopSession_frame (with_ui (setError (Some "Connection lost. Please try again."%string)) s)) as (_ & -> & _).
  - apply Hsame. unfold onclose. now destruct (stopSession_frame s) as (_ & -> & _).
  - exists n. split; [exact Hn | apply sameSource_refl].
Qed.

End SchedulerInvariants.

(** X5.  In every state reached from the mounted component, each member
    of the set of sources is a node that was created and not stopped, so
    a stopped node is never in the set.  (Each start in a sequence runs
    to its end before the next event.) *)
Theorem reachable_sourcesLive (es : list Event) (keySelected : bool) :
  let sc := sched (run es (initialState keySelected)) in
  sourcesLive sc /\
  (forall i n, nodes sc !! i = Some n -> stopped n = true -> i ∉ sourcesRef sc).
Proof.
  intros sc.
  assert (Hl : sourcesLive sc).
  { subst sc. induction es as [|e es IH] using rev_ind.
    - intros i Hi. simpl in Hi. set_solver.
    - rewrite run_snoc. now apply step_live. }
  split; [exact Hl|].
  intros i n Hn Hst Hi. destruct (Hl i Hi) as (n' & Hn' & Hst'). congruence.
Qed.

(** X6.  A source node, once created, is there in every later state with
    the same buffer and the same start time; the only change it can see
    is from not stopped to stopped. *)
Theorem source_node_persists (es : list Event) (s : State) (i : nat) (n : SourceNode) :
  nodes (sched s) !! i = Some n ->
  exists n', nodes (sched (run es s)) !! i = Some n' /\ sameSource n n'.
Proof.
  intros Hn. induction es as [|e es IH] using rev_ind.
  - exists n. split; [exact Hn | apply sameSource_refl].
  - rewrite run_snoc. destruct IH as (n1 & Hn1 & Hs1).
    destruct (step_keeps_source (run es s) e i n1 Hn1) as (n2 & Hn2 & Hs2).
    exists n2. split; [exact Hn2 | now apply sameSource_trans with n1].
Qed.

Lemma source_node_persists_witness :
  exists n',
    nodes (sched (run [Message 1 interruption; Stop; Start workingEnv]
                      (with_sched (enqueue 0 twoFrames) (activeSession true))))
      !! 0%nat = Some n' /\
    sameSource (mkSource twoFrames 0 false) n'.
Proof.
  exact (source_node_persists [Message 1 interruption; Stop; Start workingEnv]
           (with_sched (enqueue 0 twoFrames) (activeSession true)) 0%nat _ eq_refl).
Defined.

(** X7.  Buffers enqueued one after the other, at any device times: each
    starts no earlier than the device time at which it was enqueued and no
    earlier than the cursor found at the beginning, each starts no earlier
    than the end of the one enqueued before it (no two overlap), and the
    cursor never moves back and ends at the end of the last buffer. *)
Theorem enqueue_never_overlaps (items : list (Q * AudioBuffer)) :
  forall sc : Scheduler,
  exists new,
    nodes (enqueueEach items sc) = nodes sc ++ new /\
    buffer <$> new = snd <$> items /\
    Forall2 (fun now n => (now <= startTime n)%Q) (fst <$> items) new /\
    Forall (fun n => (nextStartTimeRef sc <= startTime n)%Q) new /\
    (forall k n n', new !! k = Some n -> new !! S k = Some n' ->
       (startTime n + duration (buffer n) <= startTime n')%Q) /\
    (nextStartTimeRef sc <= nextStartTimeRef (enqueueEach items sc))%Q /\
    (forall n, last new = Some n ->
       nextStartTimeRef (enqueueEach items sc) = (startTime n + duration (buffer n))%Q).
Proof.
  induction items as [|[now b] items IH]; intros sc.
  - exists []. simpl. rewrite app_nil_r.
    repeat split; auto using Qle_refl; try constructor; intros; discriminate.
  - destruct (IH (enqueue now b sc)) as (new & Hn & Hb & Hnow & Hge & Hgap & Hmono & Hlast).
    set (n0 := mkSource b (Math_max (nextStartTimeRef sc) now) false).
    assert (Hcur : nextStartTimeRef (enqueue now b sc)
                   = (startTime n0 + duration (buffer n0))%Q) by reflexivity.
    assert (Hstart : (nextStartTimeRef sc <= startTime n0)%Q) by apply Math_max_ge_l.
    assert (Hstep : (nextStartTimeRef sc <= nextStartTimeRef (enqueue now b sc))%Q).
    { rewrite Hcur. apply Qle_trans with (startTime n0 + 0)%Q.
      - now rewrite Qplus_0_r.
      - apply Qplus_le_compat; [apply Qle_refl | apply duration_nonneg]. }
    exists (n0 :: new).
    change (enqueueEach ((now, b) :: items) sc) with (enqueueEach items (enqueue now b sc)).
    repeat split.
    + rewrite Hn. simpl. now rewrite <- app_assoc.
    + now rewrite !fmap_cons, Hb.
    + rewrite fmap_cons. constructor; [apply Math_max_ge_r | exact Hnow].
    + constructor; [exact Hstart|].
      eapply Forall_impl; [exact Hge|]. intros n Hle. simpl in Hle.
      now apply Qle_trans with (nextStartTimeRef (enqueue now b sc)).
    + intros [|k] n n' Hk Hk'.
      * simpl in Hk. injection Hk as <-. simpl in Hk'.
        rewrite <- Hcur.
        destruct new as [|n1 new']; [discriminate|].
        simpl in Hk'. injection Hk' as <-. now inversion Hge.
      * simpl in Hk, Hk'. now apply (Hgap k).
    + now apply Qle_trans with (nextStartTimeRef (enqueue now b sc)).
    + intros n Hl. destruct new as [|n1 new'].
      * simpl in Hl. injection Hl as <-.
        destruct items; [reflexivity | discriminate Hb].
      * apply Hlast. now rewrite last_cons_cons in Hl.
Qed.

(** ** Transcript text *)

Section TranscriptText.

Lemma append_empty_r (s : string) : (s ++ "")%string = s.
Proof.
  induction s as [|c s IH]; [reflexivity|].
  change (String c (s ++ "") = String c s). now rewrite IH.
Qed.

Lemma append_assoc (a b c : string) : ((a ++ b) ++ c)%string = (a ++ (b ++ c))%string.
Proof.
  induction a as [|x a IH]; [reflexivity|].
  change (String x ((a ++ b) ++ c) = String x (a ++ (b ++ c))). now rewrite IH.
Qed.

Lemma truthy_false (s : string) : truthy s = false -> s = ""%string.
Proof. destruct s; [reflexivity | discriminate]. Qed.

Lemma roleText_app (r : Role) (l l' : list TranscriptionItem) :
  roleText r (l ++ l') = (roleText r l ++ roleText r l')%string.
Proof.
  induction l as [|item l IH]; simpl; [reflexivity|].
  destruct (Role_eqb (role item) r); [|exact IH].
  now rewrite IH, append_assoc.
Qed.

Lemma roleText_turnsOf (u t : string) :
  roleText user (turnsOf u t) = u /\ roleText model (turnsOf u t) = t.
Proof.
  unfold turnsOf.
  destruct (truthy u) eqn:Eu, (truthy t) eqn:Et; simpl;
    rewrite ?append_empty_r;
    try (apply truthy_false in Eu; subst u);
    try (apply truthy_false in Et; subst t); split; reflexivity.
Qed.

(** One message: what it adds to the finished and pending text of each
    role. *)
Lemma onmessage_text (now : Q) (m : ServerMessage) (s : State) :
  let s' := fst (onmessage now m s) in
  (roleText user (transcription (ui s')) ++ currentInputTranscription (agg s'))%string
    = ((roleText user (transcription (ui s)) ++ currentInputTranscription (agg s))
       ++ inputOf m)%string /\
  (roleText model (transcription (ui s')) ++ currentOutputTranscription (agg s'))%string
    = ((roleText model (transcription (ui s)) ++ currentOutputTranscription (agg s))
       ++ outputOf m)%string.
Proof.
  intros s'. subst s'.
  destruct (onmessage_frame now m s) as (_ & _ & _ & _ & _ & _ & ->).
  rewrite onmessage_agg, turnCompletePart_agg.
  assert (Hin : currentInputTranscription (agg (transcriptionPart m s))
                = (currentInputTranscription (agg s) ++ inputOf m)%string).
  { unfold transcriptionPart, inputOf.
    destruct (outputTranscription m), (inputTranscription m); simpl;
      now rewrite ?append_empty_r. }
  assert (Hout : currentOutputTranscription (agg (transcriptionPart m s))
                 = (currentOutputTranscription (agg s) ++ outputOf m)%string).
  { unfold transcriptionPart, outputOf.
    destruct (outputTranscription m), (inputTranscription m); simpl;
      now rewrite ?append_empty_r. }
  destruct (turnComplete m).
  - rewrite !roleText_app. unfold completeTurn. simpl.
    destruct (roleText_turnsOf (currentInputTranscription (agg (transcriptionPart m s)))
                (currentOutputTranscription (agg (transcriptionPart m s)))) as (-> & ->).
    rewrite Hin, Hout, !append_empty_r, !append_assoc. split; reflexivity.
  - rewrite app_nil_r, Hin, Hout, !append_assoc. split; reflexivity.
Qed.

End TranscriptText.

(** X8.  Messages delivered in order: for each role, the text of the
    finished turns followed by the pending text is what it was before
    followed by the texts received, in order of arrival.  No text is lost,
    repeated or reordered, with one exception that the equation shows: a
    message that carries both an output and an input transcription
    contributes its output text only. *)
Theorem transcript_text_conserved (ms : list (Q * ServerMessage)) :
  forall s : State,
  let s' := run (deliver ms) s in
  (roleText user (transcription (ui s')) ++ currentInputTranscription (agg s'))%string
    = ((roleText user (transcription (ui s)) ++ currentInputTranscription (agg s))
       ++ concatText (inputOf <$> (snd <$> ms)))%string /\
  (roleText model (transcription (ui s')) ++ currentOutputTranscription (agg s'))%string
    = ((roleText model (transcription (ui s)) ++ currentOutputTranscription (agg s))
       ++ concatText (outputOf <$> (snd <$> ms)))%string.
Proof.
  induction ms as [|[now m] ms IH]; intros s s'.
  - subst s'. simpl. now rewrite !append_empty_r.
  - subst s'.
    change (run (deliver ((now, m) :: ms)) s)
      with (run (deliver ms) (fst (onmessage now m s))).
    destruct (IH (fst (onmessage now m s))) as (Hu & Hm).
    destruct (onmessage_text now m s) as (Hu1 & Hm1).
    rewrite Hu, Hm, Hu1, Hm1. rewrite !fmap_cons. simpl.
    now rewrite !append_assoc.
Qed.

(** X9.  A stop followed by a start (whatever its outcome) resets neither
    the accumulators nor the scheduler: the pending text, the cursor, the
    set of sources and the nodes of the old session are those of the new
    one, so the first turn-complete of the new session puts the old
    pending text in its empty log. *)
Theorem restart_keeps_pending (s : State) (env : StartEnv) (now : Q) :
  agg (startSession env (stopSession s)) = agg s /\
  sched (startSession env (stopSession s)) = sched s /\
  transcription (ui (run [Stop; Start env; Message now turnCompleteSignal] s))
    = fst (completeTurn (agg s)).
Proof.
  destruct (stopSession_frame s) as (Ha & Hs & _).
  destruct (startSession_frame env (stopSession s)) as (Ha' & Hs' & _).
  split; [congruence|]. split; [congruence|].
  change (run [Stop; Start env; Message now turnCompleteSignal] s)
    with (fst (onmessage now turnCompleteSignal (startSession env (stopSession s)))).
  destruct (onmessage_frame now turnCompleteSignal (startSession env (stopSession s)))
    as (_ & _ & _ & _ & _ & _ & ->).
  rewrite startSession_transcription.
  change (fst (completeTurn (agg (startSession env (stopSession s))))
          = fst (completeTurn (agg s))).
  now rewrite Ha', Ha.
Qed.

(** ** Failed starts *)

Section FailedStart.

Lemma mediaErrorMessage_truthy (name message : string) :
  truthy (mediaErrorMessage name message) = true.
Proof.
  unfold mediaErrorMessage.
  destruct (String.eqb name "NotFoundError" || String.eqb name "DevicesNotFoundError");
    [reflexivity|].
  destruct (String.eqb name "NotAllowedError" || String.eqb name "PermissionDeniedError");
    reflexivity.
Qed.

Lemma closeContext_running (c : nat) (p : Platform) :
  contexts p !! c = Some Running ->
  closeContext c p
    = mkPlatform (<[c := ContextClosed]> (contexts p)) (connections p)
                 (log p ++ [ContextClose c CloseResolved]).
Proof. intros H. unfold closeContext. now rewrite H. Qed.

End FailedStart.

(** X1.  A start that cannot get the microphone.  Without capture support
    in the browser no call leaves the component; after a rejected
    [getUserMedia] that call is the only one.  In both cases no audio
    context is created, no connection is attempted, the refs and the
    active flag are as before, the log of turns is empty, the connecting
    flag is off and the error is set: to the fixed message for the
    unsupported browser, to the message chosen by the name of the
    rejection otherwise, which is never empty, so the generic fallback of
    the catch block is not shown for it. *)
Theorem startSession_without_microphone (s : State) (md : MediaOutcome)
    (cn : ConnectOutcome) (name message : string) :
  let s1 := startSession (mkStartEnv false md cn) s in
  let s2 := startSession (mkStartEnv true (MediaRejected name message) cn) s in
  (platform s1 = platform s /\ refs s1 = refs s /\
   isActive (ui s1) = isActive (ui s) /\ isConnecting (ui s1) = false /\
   transcription (ui s1) = [] /\
   error (ui s1) = Some "Your browser does not support audio recording."%string) /\
  (log (platform s2) = log (platform s) ++ [GetUserMedia false] /\
   contexts (platform s2) = contexts (platform s) /\
   connections (platform s2) = connections (platform s) /\
   refs s2 = refs s /\
   isActive (ui s2) = isActive (ui s) /\ isConnecting (ui s2) = false /\
   transcription (ui s2) = [] /\
   error (ui s2) = Some (mediaErrorMessage name message) /\
   truthy (mediaErrorMessage name message) = true) /\
  sessionState s1 = (if isActive (ui s) then Active else Errored) /\
  sessionState s2 = (if isActive (ui s) then Active else Errored).
Proof.
  intros s1 s2. subst s1 s2.
  pose proof (mediaErrorMessage_truthy name message) as Ht.
  unfold startSession, startSession_catch, sessionState. simpl. rewrite Ht.
  destruct s as [[act con err tr] a sc r [cx cs lg] st]; simpl.
  repeat split; destruct act; reflexivity.
Qed.

(** X2.  A start whose connection fails, after the microphone was
    granted: the catch block releases nothing.  The microphone was
    acquired, the two contexts just created are running and held by the
    refs, no [close()] was called, the session ref is as before, and the
    error is the message of the failure, or the generic one if that is
    empty.  A stop after it closes exactly these two contexts, each call
    resolving. *)
Theorem startSession_connect_failure (s : State) (message : string) :
  let s' := startSession (mkStartEnv true StreamGranted (ConnectFailed message)) s in
  let n := length (contexts (platform s)) in
  (log (platform s')
     = log (platform s)
       ++ [GetUserMedia true; NewAudioContext n 16000; NewAudioContext (S n) 24000;
           LiveConnect] /\
   contexts (platform s') = contexts (platform s) ++ [Running; Running] /\
   refs s' = mkRefs (sessionRef (refs s)) (Some n) (Some (S n)) /\
   isConnecting (ui s') = false /\
   error (ui s')
     = Some (if truthy message then message
             else "Failed to start voice assistant."%string)) /\
  (contexts (platform (stopSession s'))
     = contexts (platform s) ++ [ContextClosed; ContextClosed] /\
   count (isContextClose n) (log (platform (stopSession s')))
     = S (count (isContextClose n) (log (platform s))) /\
   count (isContextClose (S n)) (log (platform (stopSession s')))
     = S (count (isContextClose (S n)) (log (platform s))) /\
   In (ContextClose n CloseResolved) (log (platform (stopSession s'))) /\
   In (ContextClose (S n) CloseResolved) (log (platform (stopSession s')))).
Proof.
  intros s' n.
  assert (Hlog : log (platform s')
     = log (platform s)
       ++ [GetUserMedia true; NewAudioContext n 16000; NewAudioContext (S n) 24000;
           LiveConnect]).
  { subst s' n. unfold startSession. simpl. now rewrite <- !app_assoc. }
  assert (Hctx : contexts (platform s') = contexts (platform s) ++ [Running; Running])
    by reflexivity.
  assert (Hrefs : refs s' = mkRefs (sessionRef (refs s)) (Some n) (Some (S n)))
    by reflexivity.
  split; [repeat split; assumption|].
  clearbody s'.
  rewrite stopSession_platform_cases, Hrefs. cbn [sessionRef audioContextRef outputAudioContextRef].
  cbn zeta.
  set (p1 := match sessionRef (refs s) with
             | Some k => closeConnection k (platform s')
             | None => platform s'
             end).
  assert (Hp1c : contexts p1 = contexts (platform s) ++ [Running; Running])
    by (subst p1; destruct (sessionRef (refs s)); exact Hctx).
  assert (Hp1n : forall c, count (isContextClose c) (log p1)
                           = count (isContextClose c) (log (platform s))).
  { intros c. subst p1. destruct (sessionRef (refs s)); simpl; rewrite Hlog;
      rewrite ?count_app; unfold count; simpl; lia. }
  assert (Hn : contexts p1 !! n = Some Running).
  { rewrite Hp1c. subst n. now rewrite lookup_app_r, Nat.sub_diag by lia. }
  rewrite (closeContext_running n p1 Hn).
  set (p2 := mkPlatform (<[n:=ContextClosed]> (contexts p1)) (connections p1)
                        (log p1 ++ [ContextClose n CloseResolved])).
  assert (Hp2c : contexts p2 = contexts (platform s) ++ [ContextClosed; Running]).
  { subst p2. simpl. rewrite Hp1c. subst n.
    rewrite insert_app_r_alt by lia. now rewrite Nat.sub_diag. }
  assert (Hsn : contexts p2 !! S n = Some Running).
  { rewrite Hp2c. subst n. rewrite lookup_app_r by lia.
    now replace (S (length (contexts (platform s))) - length (contexts (platform s)))%nat
      with 1%nat by lia. }
  rewrite (closeContext_running (S n) p2 Hsn). simpl.
  repeat split.
  - rewrite Hp1c. subst n. rewrite insert_app_r_alt by lia. rewrite Nat.sub_diag. simpl.
    rewrite insert_app_r_alt by lia.
    now replace (S (length (contexts (platform s))) - length (contexts (platform s)))%nat
      with 1%nat by lia.
  - rewrite !count_app, Hp1n. unfold count.
    cbn [List.filter isContextClose]. rewrite Nat.eqb_refl.
    replace (n =? S n)%nat with false by (symmetry; apply Nat.eqb_neq; lia).
    cbn [length]. lia.
  - rewrite !count_app, Hp1n. unfold count.
    cbn [List.filter isContextClose]. rewrite Nat.eqb_refl.
    replace (S n =? n)%nat with false by (symmetry; apply Nat.eqb_neq; lia).
    cbn [length]. lia.
  - apply in_or_app. left. apply in_or_app. right. now left.
  - apply in_or_app. right. now left.
Qed.

(** ** Capture frames *)

Section CaptureFrames.
Import Codec.

Lemma int16Bytes_spec (v : Z) :
  -32768 <= v <= 32767 ->
  exists lo hi,
    int16Bytes v = [lo; hi] /\ 0 <= lo < 256 /\ 0 <= hi < 256 /\
    ToInt16 (lo + 256 * hi) = v.
Proof.
  intros Hv. unfold int16Bytes.
  pose proof (Z.mod_pos_bound v 65536 eq_refl) as Hu.
  set (u := v mod 65536) in *.
  exists (u mod 256), (u / 256).
  pose proof (Z.mod_pos_bound u 256 eq_refl) as Hlo.
  pose proof (Z.div_mod u 256 ltac:(lia)) as Hdm.
  assert (0 <= u / 256 < 256).
  { split; [apply Z.div_pos; lia | apply Z.div_lt_upper_bound; lia]. }
  repeat split; try lia.
  replace (u mod 256 + 256 * (u / 256)) with u by lia.
  unfold ToInt16. subst u. rewrite Z.mod_mod by lia.
  fold (ToInt16 v). now apply ToInt16_id.
Qed.

Lemma pcm16Bytes_length (int16 : list Z) :
  length (pcm16Bytes int16) = (2 * length int16)%nat.
Proof.
  unfold pcm16Bytes. induction int16 as [|v l IH]; [reflexivity|].
  simpl. rewrite IH. lia.
Qed.

Lemma pcm16Bytes_range (int16 : list Z) :
  Forall (fun b => 0 <= b < 256) (pcm16Bytes int16).
Proof.
  unfold pcm16Bytes. induction int16 as [|v l IH]; [constructor|].
  simpl.
  pose proof (Z.mod_pos_bound v 65536 eq_refl) as Hu.
  pose proof (Z.mod_pos_bound (v mod 65536) 256 eq_refl) as Hlo.
  constructor; [exact Hlo|]. constructor; [|exact IH].
  split; [apply Z.div_pos; lia | apply Z.div_lt_upper_bound; lia].
Qed.

End CaptureFrames.

(** X10.  The bytes of a capture frame: every block of samples, whatever
    their values, gives two bytes per sample, each between 0 and 255, and
    the two bytes of a sample, low byte first, read back as a signed
    16-bit number give the value that was stored for it. *)
Theorem capture_frame_bytes (inputData : list Q) :
  length (Codec.pcm16Bytes (Codec.floatSamplesToPCM16 inputData))
    = (2 * length inputData)%nat /\
  Forall (fun b => 0 <= b < 256) (Codec.pcm16Bytes (Codec.floatSamplesToPCM16 inputData)) /\
  (forall x,
     exists lo hi,
       Codec.int16Bytes (Codec.sampleToPCM16 x) = [lo; hi] /\
       0 <= lo < 256 /\ 0 <= hi < 256 /\
       Codec.ToInt16 (lo + 256 * hi) = Codec.sampleToPCM16 x).
Proof.
  split; [|split].
  - rewrite pcm16Bytes_length. unfold Codec.floatSamplesToPCM16.
    now rewrite length_map.
  - apply pcm16Bytes_range.
  - intros x. apply int16Bytes_spec. apply ToInt16_range.
Qed.

(** X11.  The stored value of a sample in range is within one step of the
    scaled sample, on the side of zero: for [-1 <= x < 1] the distance
    between [32768 * x] and the stored integer is less than 1, and the
    integer is not larger in absolute value. *)
Theorem sampleToPCM16_quantization (x : Q) :
  (-1 <= x)%Q -> (x < 1)%Q ->
  (Qabs (x * 32768 - inject_Z (Codec.sampleToPCM16 x)) < 1)%Q /\
  (Qabs (inject_Z (Codec.sampleToPCM16 x)) <= Qabs (x * 32768))%Q.
Proof.
  intros Hlo Hhi.
  assert (E : Codec.sampleToPCM16 x = Codec.truncate (x * 32768)%Q)
    by (apply ToInt16_id, truncate_scaled_bounds; assumption).
  rewrite E, truncate_scaled.
  destruct x as [n d]. clear E Hlo Hhi.
  cbn [Qnum Qden].
  pose proof (Z.quot_rem' (n * 32768) (Z.pos d)) as Hqr.
  pose proof (Z.rem_bound_abs (n * 32768) (Z.pos d) ltac:(lia)) as Hr.
  set (q := Z.quot (n * 32768) (Z.pos d)) in *.
  set (r := Z.rem (n * 32768) (Z.pos d)) in *.
  assert (Hside : (0 <= r /\ 0 <= q) \/ (r <= 0 /\ q <= 0)).
  { destruct (Z_le_gt_dec 0 (n * 32768)) as [Hpos | Hneg].
    - left. split.
      + apply Z.rem_nonneg; lia.
      + apply Z.quot_pos; lia.
    - right. assert (Hrn : r <= 0) by (apply Z.rem_nonpos; lia).
      split; [exact Hrn | nia]. }
  split.
  - unfold Qlt, Qabs, Qminus, Qplus, Qopp, Qmult, inject_Z. simpl.
    rewrite !Pos.mul_1_r, !Z.mul_1_r.
    replace (n * 32768 + - q * Z.pos d) with r by lia. lia.
  - unfold Qle, Qabs, Qmult, inject_Z. simpl.
    rewrite !Pos.mul_1_r, !Z.mul_1_r. nia.
Qed.

Lemma sampleToPCM16_quantization_witness :
  (Qabs ((1 # 3) * 32768 - inject_Z (Codec.sampleToPCM16 (1 # 3))) < 1)%Q /\
  (Qabs (inject_Z (Codec.sampleToPCM16 (1 # 3))) <= Qabs ((1 # 3) * 32768))%Q.
Proof.
  apply (sampleToPCM16_quantization (1 # 3)); unfold Qle, Qlt; simpl; lia.
Defined.

(** ** Data URLs *)

Section DataUrls.

Lemma afterComma_app (a b : string) :
  noComma a = true -> afterComma (a ++ String ","%char b) = Some b.
Proof.
  induction a as [|c a IH]; intros H; [reflexivity|].
  simpl in H. apply andb_true_iff in H as [Hc Ha].
  change (afterComma (String c (a ++ String ","%char b)) = Some b).
  simpl. apply negb_true_iff in Hc. rewrite Hc. now apply IH.
Qed.

Lemma afterComma_none (a : string) : noComma a = true -> afterComma a = None.
Proof.
  induction a as [|c a IH]; intros H; [reflexivity|].
  simpl in H. apply andb_true_iff in H as [Hc Ha].
  simpl. apply negb_true_iff in Hc. rewrite Hc. now apply IH.
Qed.

Lemma beforeComma_all (b : string) : noComma b = true -> beforeComma b = b.
Proof.
  induction b as [|c b IH]; intros H; [reflexivity|].
  simpl in H. apply andb_true_iff in H as [Hc Hb].
  simpl. apply negb_true_iff in Hc. rewrite Hc. now rewrite IH.
Qed.

Lemma beforeComma_app (b rest : string) :
  noComma b = true -> beforeComma (b ++ String ","%char rest) = b.
Proof.
  induction b as [|c b IH]; intros H; [reflexivity|].
  simpl in H. apply andb_true_iff in H as [Hc Hb].
  change (beforeComma (String c (b ++ String ","%char rest)) = String c b).
  simpl. apply negb_true_iff in Hc. rewrite Hc. now rewrite IH.
Qed.

End DataUrls.

(** X12.  The second field of a comma-separated string, as the image and
    video requests take it from a data URL: for a header and a payload
    without commas, [header,payload] gives the payload, also when more
    fields follow; a string without a comma gives [undefined]; and the
    URL that the image studio builds for a result gives its data back. *)
Theorem splitSecond_payload (header payload : string) :
  noComma header = true -> noComma payload = true ->
  splitSecond (header ++ String ","%char payload) = Some payload /\
  (forall rest, splitSecond (header ++ String ","%char (payload ++ String ","%char rest))
                = Some payload) /\
  splitSecond header = None /\
  splitSecond (ImageStudio.imageUrl payload) = Some payload.
Proof.
  intros Hh Hp. unfold splitSecond. repeat split.
  - now rewrite afterComma_app, beforeComma_all.
  - intros rest. now rewrite afterComma_app, beforeComma_app.
  - now rewrite afterComma_none.
  - unfold ImageStudio.imageUrl.
    change ("data:image/png;base64," ++ payload)%string
      with ("data:image/png;base64" ++ String ","%char payload)%string.
    now rewrite afterComma_app, beforeComma_all.
Qed.

Lemma splitSecond_payload_witness :
  splitSecond "data:image/png;base64,iVBORw0KGgo=" = Some "iVBORw0KGgo="%string.
Proof.
  exact (proj1 (splitSecond_payload "data:image/png;base64" "iVBORw0KGgo=" eq_refl eq_refl)).
Defined.

(** ** ImageStudio *)

Section ImageStudioFacts.
Import ImageStudio.

Lemma isSpace2_not_1 (a b : ascii) : isSpace2 a b = true -> isSpace1 a = false.
Proof.
  unfold isSpace2, isSpace1. intros H.
  apply andb_true_iff in H as [Ha _]. apply Nat.eqb_eq in Ha. rewrite Ha. reflexivity.
Qed.

Lemma isSpace3_not_1 (a b c : ascii) : isSpace3 a b c = true -> isSpace1 a = false.
Proof.
  destruct a as [[] [] [] [] [] [] [] []]; intros H;
    try reflexivity; cbv in H; discriminate H.
Qed.

Lemma isSpace3_not_2 (a b c : ascii) : isSpace3 a b c = true -> isSpace2 a b = false.
Proof.
  destruct a as [[] [] [] [] [] [] [] []]; intros H;
    try reflexivity; cbv in H; discriminate H.
Qed.

Lemma WhiteSeq_app (l l' : list ascii) : WhiteSeq l -> WhiteSeq l' -> WhiteSeq (l ++ l').
Proof.
  intros Hl Hl'. induction Hl; simpl; [assumption | | |];
    constructor; assumption.
Qed.

Lemma trimStart_cons (a : ascii) (rest : list ascii) :
  trimStart (a :: rest)
    = if isSpace1 a then trimStart rest
      else match rest with
           | b :: rest2 =>
               if isSpace2 a b then trimStart rest2
               else match rest2 with
                    | c :: rest3 => if isSpace3 a b c then trimStart rest3 else a :: rest
                    | [] => a :: rest
                    end
           | [] => a :: rest
           end.
Proof. reflexivity. Qed.

Lemma whiteOnly_cons (a : ascii) (rest : list ascii) :
  whiteOnly (a :: rest)
    = if isSpace1 a then whiteOnly rest
      else match rest with
           | b :: rest2 =>
               if isSpace2 a b then whiteOnly rest2
               else match rest2 with
                    | c :: rest3 => isSpace3 a b c && whiteOnly rest3
                    | [] => false
                    end
           | [] => false
           end.
Proof. reflexivity. Qed.

Lemma trimEndReversed_cons (c : ascii) (rest : list ascii) :
  trimEndReversed (c :: rest)
    = if isSpace1 c then trimEndReversed rest
      else match rest with
           | b :: rest2 =>
               if isSpace2 b c then trimEndReversed rest2
               else match rest2 with
                    | a :: rest3 =>
                        if isSpace3 a b c then trimEndReversed rest3 else c :: rest
                    | [] => c :: rest
                    end
           | [] => c :: rest
           end.
Proof. reflexivity. Qed.

Lemma whiteOnly_trimStart (cs : list ascii) : whiteOnly cs = true -> trimStart cs = [].
Proof.
  induction cs as [cs IH] using (induction_ltof1 _ (@length ascii)).
  unfold ltof in IH.
  destruct cs as [|a rest]; [reflexivity|].
  rewrite trimStart_cons, whiteOnly_cons.
  destruct (isSpace1 a); [apply IH; simpl; lia|].
  destruct rest as [|b rest2]; [discriminate|].
  destruct (isSpace2 a b); [apply IH; simpl; lia|].
  destruct rest2 as [|c rest3]; [discriminate|].
  destruct (isSpace3 a b c); [apply IH; simpl; lia | discriminate].
Qed.

Lemma whiteOnly_after_trimStart (cs : list ascii) :
  whiteOnly (trimStart cs) = whiteOnly cs.
Proof.
  induction cs as [cs IH] using (induction_ltof1 _ (@length ascii)).
  unfold ltof in IH.
  destruct cs as [|a rest]; [reflexivity|].
  rewrite trimStart_cons, (whiteOnly_cons a rest).
  destruct (isSpace1 a) eqn:E1; [apply IH; simpl; lia|].
  destruct rest as [|b rest2]; [rewrite whiteOnly_cons; now rewrite E1|].
  destruct (isSpace2 a b) eqn:E2; [apply IH; simpl; lia|].
  destruct rest2 as [|c rest3]; [rewrite whiteOnly_cons; now rewrite E1, E2|].
  destruct (isSpace3 a b c) eqn:E3.
  - rewrite IH by (simpl; lia). reflexivity.
  - rewrite whiteOnly_cons. now rewrite E1, E2, E3.
Qed.

Lemma WhiteSeq_whiteOnly (cs : list ascii) : WhiteSeq cs -> whiteOnly cs = true.
Proof.
  intros H. induction H as [|a rest Ha _ IH|a b rest Hab _ IH|a b c rest Habc _ IH].
  - reflexivity.
  - rewrite whiteOnly_cons. now rewrite Ha.
  - rewrite whiteOnly_cons. now rewrite (isSpace2_not_1 a b Hab), Hab.
  - rewrite whiteOnly_cons.
    now rewrite (isSpace3_not_1 a b c Habc), (isSpace3_not_2 a b c Habc), Habc, IH.
Qed.

Lemma trimEndReversed_nil (rs : list ascii) :
  trimEndReversed rs = [] -> WhiteSeq (rev rs).
Proof.
  induction rs as [rs IH] using (induction_ltof1 _ (@length ascii)).
  unfold ltof in IH.
  destruct rs as [|c rest]; [intros _; constructor|].
  rewrite trimEndReversed_cons.
  destruct (isSpace1 c) eqn:E1.
  { intros H. change (rev (c :: rest)) with (rev rest ++ [c]).
    apply WhiteSeq_app; [apply IH; [simpl; lia | exact H]|].
    apply white_1; [exact E1 | constructor]. }
  destruct rest as [|b rest2]; [discriminate|].
  destruct (isSpace2 b c) eqn:E2.
  { intros H.
    replace (rev (c :: b :: rest2)) with (rev rest2 ++ [b; c])
      by (simpl; now rewrite <- !app_assoc).
    apply WhiteSeq_app; [apply IH; [simpl; lia | exact H]|].
    apply white_2; [exact E2 | constructor]. }
  destruct rest2 as [|a rest3]; [discriminate|].
  destruct (isSpace3 a b c) eqn:E3; [|discriminate].
  intros H.
  replace (rev (c :: b :: a :: rest3)) with (rev rest3 ++ [a; b; c])
    by (simpl; now rewrite <- !app_assoc).
  apply WhiteSeq_app; [apply IH; [simpl; lia | exact H]|].
  apply white_3; [exact E3 | constructor].
Qed.

Lemma truthy_string_of_list (cs : list ascii) :
  truthy (string_of_list_ascii cs) = match cs with [] => false | _ => true end.
Proof. destruct cs; reflexivity. Qed.

(** The trimmed prompt is empty exactly when the prompt is white space
    only. *)
Lemma trim_truthy (s : string) :
  truthy (trim s) = negb (whiteOnly (list_ascii_of_string s)).
Proof.
  unfold trim. rewrite truthy_string_of_list.
  set (cs := list_ascii_of_string s).
  destruct (whiteOnly cs) eqn:E.
  - now rewrite (whiteOnly_trimStart cs E).
  - destruct (rev (trimEndReversed (rev (trimStart cs)))) as [|c r] eqn:R; [|reflexivity].
    exfalso.
    apply (f_equal (@rev ascii)) in R. rewrite rev_involutive in R. simpl in R.
    apply trimEndReversed_nil in R. rewrite rev_involutive in R.
    apply WhiteSeq_whiteOnly in R. rewrite whiteOnly_after_trimStart in R. congruence.
Qed.

Lemma count_calls_app (l l' : list Call) :
  length (List.filter isGenerateContent (l ++ l'))
    = (length (List.filter isGenerateContent l)
       + length (List.filter isGenerateContent l'))%nat.
Proof. now rewrite List.filter_app, length_app. Qed.

Lemma firstInline_skip (k : nat) (data : string) (rest : list (option string)) :
  firstInline (repeat None k ++ Some data :: rest) = Some data.
Proof. induction k as [|k IH]; [reflexivity | exact IH]. Qed.

Lemma firstInline_none (k : nat) : firstInline (repeat None k) = None.
Proof. induction k as [|k IH]; [reflexivity | exact IH]. Qed.

End ImageStudioFacts.

(** X13.  [handleGenerate] sends a request exactly when there is
    something to send.  With a prompt of white space only (any of the
    characters that [trim] removes, the no-break space and the other
    Unicode spaces among them) and no base image it does nothing at all;
    otherwise it makes one [generateContent] call, whatever the answer,
    leaves prompt and base image alone, ends with the busy flag off, and
    keeps every earlier history entry, adding at most one in front. *)
Theorem handleGenerate_sends_once (response : ImageStudio.Response) (s : ImageStudio.State) :
  let s' := ImageStudio.handleGenerate response s in
  if ImageStudio.whiteOnly (list_ascii_of_string (ImageStudio.prompt s))
     && negb (truthyOpt (ImageStudio.baseImage s))
  then s' = s
  else
    length (List.filter ImageStudio.isGenerateContent (ImageStudio.calls s'))
      = S (length (List.filter ImageStudio.isGenerateContent (ImageStudio.calls s))) /\
    ImageStudio.isGenerating s' = false /\
    ImageStudio.prompt s' = ImageStudio.prompt s /\
    ImageStudio.baseImage s' = ImageStudio.baseImage s /\
    (ImageStudio.history s' = ImageStudio.history s \/
     exists item, ImageStudio.history s' = item :: ImageStudio.history s /\
                  ImageStudio.resultImage s' = Some (ImageStudio.url item)).
Proof.
  intros s'. subst s'. unfold ImageStudio.handleGenerate, ImageStudio.nothingToSend.
  rewrite trim_truthy, negb_involutive.
  destruct (ImageStudio.whiteOnly (list_ascii_of_string (ImageStudio.prompt s))
            && negb (truthyOpt (ImageStudio.baseImage s))); [reflexivity|].
  destruct response as [parts|].
  - destruct (ImageStudio.firstInline parts) as [data|]; simpl;
      rewrite count_calls_app; simpl; repeat split; try lia; eauto.
  - simpl. rewrite !count_calls_app. simpl. repeat split; try lia; auto.
Qed.

(** Prompts of Unicode white space: a no-break space, and a tab, an
    ideographic space and a line feed, are trimmed to the empty string,
    and with no base image nothing is sent; white space around a word is
    removed at both ends and the request goes out. *)
Example handleGenerate_unicode_space (response : ImageStudio.Response) :
  ImageStudio.trim ImageStudio.noBreakSpace = EmptyString /\
  ImageStudio.handleGenerate response
    (ImageStudio.mkState ImageStudio.noBreakSpace false None None [] [])
    = ImageStudio.mkState ImageStudio.noBreakSpace false None None [] [] /\
  (let blank := (String (ascii_of_nat 9) ImageStudio.ideographicSpace
                 ++ String (ascii_of_nat 10) EmptyString)%string in
   ImageStudio.handleGenerate response (ImageStudio.mkState blank false None None [] [])
     = ImageStudio.mkState blank false None None [] []) /\
  ImageStudio.trim (ImageStudio.noBreakSpace ++ " a cat" ++ ImageStudio.ideographicSpace)
    = "a cat"%string /\
  ImageStudio.nothingToSend
    (ImageStudio.mkState (ImageStudio.noBreakSpace ++ "a cat") false None None [] [])
    = false.
Proof. repeat split. Qed.

(** X14.  What [handleGenerate] shows.  When there is something to send:
    the result is the data URL of the first part of the answer that has
    inline data, and that URL with the prompt goes in front of the
    history, whatever parts come after it; an answer without such a part
    changes neither result nor history and raises no alert; a failure
    changes neither and raises one alert. *)
Theorem handleGenerate_first_image (s : ImageStudio.State) (k : nat) (data : string)
    (rest : list (option string)) :
  ImageStudio.nothingToSend s = false ->
  let got := ImageStudio.handleGenerate
               (ImageStudio.Parts (repeat None k ++ Some data :: rest)) s in
  let empty := ImageStudio.handleGenerate (ImageStudio.Parts (repeat None k)) s in
  let failed := ImageStudio.handleGenerate ImageStudio.Failure s in
  (ImageStudio.resultImage got = Some (ImageStudio.imageUrl data) /\
   ImageStudio.history got
     = ImageStudio.mkHistoryItem (ImageStudio.imageUrl data) (ImageStudio.prompt s)
       :: ImageStudio.history s /\
   ImageStudio.calls got
     = ImageStudio.calls s ++ [ImageStudio.GenerateContent (ImageStudio.requestParts s)]) /\
  (ImageStudio.resultImage empty = ImageStudio.resultImage s /\
   ImageStudio.history empty = ImageStudio.history s /\
   ImageStudio.calls empty
     = ImageStudio.calls s ++ [ImageStudio.GenerateContent (ImageStudio.requestParts s)]) /\
  (ImageStudio.resultImage failed = ImageStudio.resultImage s /\
   ImageStudio.history failed = ImageStudio.history s /\
   ImageStudio.calls failed
     = ImageStudio.calls s
       ++ [ImageStudio.GenerateContent (ImageStudio.requestParts s);
           ImageStudio.Alert "Failed to generate image. Please try again."]).
Proof.
  intros Hsend got empty failed. subst got empty failed.
  unfold ImageStudio.handleGenerate.
  rewrite Hsend, firstInline_skip, firstInline_none. simpl.
  rewrite <- app_assoc. repeat split.
Qed.

Lemma handleGenerate_first_image_witness :
  ImageStudio.resultImage
    (ImageStudio.handleGenerate
       (ImageStudio.Parts (repeat None 1 ++ Some "QUJD"%string :: [Some "QUJE"%string]))
       (ImageStudio.mkState "a cat" false None None [] []))
    = Some "data:image/png;base64,QUJD"%string.
Proof.
  exact (proj1 (proj1 (handleGenerate_first_image
                         (ImageStudio.mkState "a cat" false None None [] [])
                         1 "QUJD" [Some "QUJE"%string] eq_refl))).
Defined.

(** X15.  Editing mode.  With a base image that is a data URL (a header
    and a payload without commas) there is always something to send, even
    with an empty prompt: the request carries the payload as inline data
    and, as its text, the prompt or, if the prompt is empty, the default
    instruction. *)
Theorem handleGenerate_editing_request (s : ImageStudio.State) (header payload : string) :
  noComma header = true -> noComma payload = true ->
  ImageStudio.baseImage s = Some (header ++ String ","%char payload)%string ->
  ImageStudio.nothingToSend s = false /\
  ImageStudio.requestParts s
    = [ImageStudio.InlinePart (Some payload);
       ImageStudio.TextPart (if truthy (ImageStudio.prompt s) then ImageStudio.prompt s
                             else "Enhance this image"%string)].
Proof.
  intros Hh Hp Hb.
  assert (Ht : truthy (header ++ String ","%char payload) = true)
    by (destruct header; reflexivity).
  unfold ImageStudio.nothingToSend, ImageStudio.requestParts. rewrite Hb. simpl.
  rewrite Ht, andb_false_r.
  unfold splitSecond. rewrite afterComma_app, beforeComma_all by assumption.
  split; reflexivity.
Qed.

Lemma handleGenerate_editing_request_witness :
  ImageStudio.requestParts
    (ImageStudio.mkState "" false (Some "data:image/png;base64,QUJD"%string) None [] [])
    = [ImageStudio.InlinePart (Some "QUJD"%string);
       ImageStudio.TextPart "Enhance this image"].
Proof.
  exact (proj2 (handleGenerate_editing_request
                  (ImageStudio.mkState "" false (Some "data:image/png;base64,QUJD"%string)
                                       None [] [])
                  "data:image/png;base64" "QUJD" eq_refl eq_refl eq_refl)).
Defined.

(** ** VideoStudio *)

Section VideoStudioFacts.
Import VideoStudio.

Lemma filterIndex_keep_all {A} (keep : nat -> bool) (l : list A) :
  forall k, (forall j, (k <= j)%nat -> keep j = true) -> filterIndex keep k l = l.
Proof.
  induction l as [|x l IH]; intros k Hk; [reflexivity|].
  simpl. rewrite Hk by lia. now rewrite IH by (intros j Hj; apply Hk; lia).
Qed.

Lemma filterIndex_delete {A} (l : list A) :
  forall idx i,
    filterIndex (fun j => negb (Nat.eqb j (i + idx))) i l = delete idx l.
Proof.
  induction l as [|x l IH]; intros idx i; [now destruct idx|].
  simpl. destruct idx as [|idx].
  - rewrite Nat.add_0_r, Nat.eqb_refl. simpl.
    apply filterIndex_keep_all. intros j Hj.
    apply negb_true_iff, Nat.eqb_neq. lia.
  - replace (i =? i + S idx)%nat with false by (symmetry; apply Nat.eqb_neq; lia).
    simpl. f_equal.
    replace (i + S idx)%nat with (S i + idx)%nat by lia. apply IH.
Qed.

Lemma removeRefImage_delete (idx : nat) (l : list string) :
  removeRefImage idx l = delete idx l.
Proof. unfold removeRefImage. exact (filterIndex_delete l idx 0%nat). Qed.

Lemma length_delete_le {A} (l : list A) :
  forall i, (length (delete i l) <= length l)%nat.
Proof.
  induction l as [|x l IH]; intros [|i].
  - reflexivity.
  - reflexivity.
  - change (delete 0%nat (x :: l)) with l. simpl. lia.
  - change (delete (S i) (x :: l)) with (x :: delete i l).
    specialize (IH i). simpl. lia.
Qed.

Lemma handleAddRefImage_bound (data : string) (l : list string) :
  (length l <= 3)%nat -> (length (handleAddRefImage data l) <= 3)%nat.
Proof.
  intros H. unfold handleAddRefImage, mayAddRefImage, onloadRefImage.
  destruct (Nat.ltb_spec (length l) 3); [|exact H].
  rewrite length_app. simpl. lia.
Qed.

Lemma applyRefAction_bound (l : list string) (a : RefAction) :
  (length l <= 3)%nat -> (length (applyRefAction l a) <= 3)%nat.
Proof.
  intros H. destruct a as [data|idx]; simpl.
  - now apply handleAddRefImage_bound.
  - rewrite removeRefImage_delete.
    pose proof (length_delete_le l idx). lia.
Qed.

Lemma pollOperation_done (answers : list Answer) (operation : Operation) :
  done operation = true -> pollOperation answers operation = Finished operation 0.
Proof. intros H. destruct answers; simpl; now rewrite H. Qed.

Lemma pollOperation_pending (pre : list Operation) :
  forall (operation final : Operation) (post : list Answer),
    done operation = false ->
    Forall (fun o => done o = false) pre ->
    done final = true ->
    pollOperation ((Answered <$> pre) ++ Answered final :: post) operation
      = Finished final (S (length pre)).
Proof.
  induction pre as [|o pre IH]; intros operation final post Hop Hpre Hfin.
  - simpl. now rewrite Hop, (pollOperation_done post final Hfin).
  - inversion Hpre as [|? ? Ho Hpre']; subst.
    change (pollOperation ((Answered <$> o :: pre) ++ Answered final :: post) operation)
      with (if done operation then Finished operation 0
            else onePollMore
                   (pollOperation ((Answered <$> pre) ++ Answered final :: post) o)).
    rewrite Hop, (IH o final post Ho Hpre' Hfin). reflexivity.
Qed.

Lemma pollOperation_thrown (pre : list Operation) :
  forall (operation : Operation) (post : list Answer),
    done operation = false ->
    Forall (fun o => done o = false) pre ->
    pollOperation ((Answered <$> pre) ++ Thrown :: post) operation
      = Failed (S (length pre)).
Proof.
  induction pre as [|o pre IH]; intros operation post Hop Hpre.
  - simpl. now rewrite Hop.
  - inversion Hpre as [|? ? Ho Hpre']; subst.
    change (pollOperation ((Answered <$> o :: pre) ++ Thrown :: post) operation)
      with (if done operation then Finished operation 0
            else onePollMore (pollOperation ((Answered <$> pre) ++ Thrown :: post) o)).
    rewrite Hop, (IH o post Ho Hpre'). reflexivity.
Qed.

Lemma pollOperation_never (pre : list Operation) :
  forall operation,
    done operation = false ->
    Forall (fun o => done o = false) pre ->
    pollOperation (Answered <$> pre) operation = StillPolling.
Proof.
  induction pre as [|o pre IH]; intros operation Hop Hall.
  - simpl. now rewrite Hop.
  - inversion Hall as [|? ? Ho Hall']; subst.
    change (pollOperation (Answered <$> o :: pre) operation)
      with (if done operation then Finished operation 0
            else onePollMore (pollOperation (Answered <$> pre) o)).
    rewrite Hop, (IH o Ho Hall'). reflexivity.
Qed.

End VideoStudioFacts.

(** X16.  The reference images of the video studio.  The remove button
    deletes exactly the entry at its index and keeps the others in order
    (an index past the end deletes nothing); a file is added at the end,
    and only while there are fewer than three.  So, starting empty and
    with each file read before the next action, there are never more
    than three, in any sequence of additions and removals.  The bound
    rests on that order: the guard is evaluated when the file is chosen,
    the append when it has been read, and two files chosen at two
    entries and read afterwards give four. *)
Theorem refImages_at_most_three (actions : list RefAction) :
  (length (fold_left applyRefAction actions []) <= 3)%nat /\
  (forall idx l, VideoStudio.removeRefImage idx l = delete idx l) /\
  (forall data l,
     VideoStudio.handleAddRefImage data l
       = if (length l <? 3)%nat then l ++ [data] else l) /\
  (forall a b l, length l = 2%nat ->
     VideoStudio.mayAddRefImage l = true /\
     length (VideoStudio.onloadRefImage b (VideoStudio.onloadRefImage a l)) = 4%nat).
Proof.
  split; [|split; [|split]].
  - assert (H : forall l, (length l <= 3)%nat ->
              (length (fold_left applyRefAction actions l) <= 3)%nat).
    { induction actions as [|a actions IH]; intros l Hl; [exact Hl|].
      simpl. apply IH. now apply applyRefAction_bound. }
    apply H. simpl. lia.
  - apply removeRefImage_delete.
  - reflexivity.
  - intros a b l Hl. unfold VideoStudio.mayAddRefImage, VideoStudio.onloadRefImage.
    rewrite !length_app, Hl. split; reflexivity.
Qed.

(** X17.  The polling loop of [generateVideo].  Starting from an
    operation that is not done, the loop asks again while the answers are
    operations that are not done.  It ends with the first answer that is
    done, or by the first exception, after as many requests as answers up
    to and including that one; what the service would have answered
    later plays no part.  While every answer is an operation that is not
    done it does not end: the loop has no bound on the number of
    requests.  An operation that is done already is taken with no
    request. *)
Theorem pollOperation_first_done (operation final : VideoStudio.Operation)
    (pre : list VideoStudio.Operation) (post : list VideoStudio.Answer) :
  VideoStudio.done operation = false ->
  Forall (fun o => VideoStudio.done o = false) pre ->
  VideoStudio.done final = true ->
  VideoStudio.pollOperation
      ((VideoStudio.Answered <$> pre) ++ VideoStudio.Answered final :: post) operation
    = VideoStudio.Finished final (S (length pre)) /\
  VideoStudio.pollOperation
      ((VideoStudio.Answered <$> pre) ++ VideoStudio.Thrown :: post) operation
    = VideoStudio.Failed (S (length pre)) /\
  VideoStudio.pollOperation (VideoStudio.Answered <$> pre) operation
    = VideoStudio.StillPolling /\
  (forall answers,
     VideoStudio.pollOperation answers final = VideoStudio.Finished final 0).
Proof.
  intros Hop Hpre Hfin. split; [|split; [|split]].
  - now apply pollOperation_pending.
  - now apply pollOperation_thrown.
  - now apply pollOperation_never.
  - intros answers. now apply pollOperation_done.
Qed.

Lemma pollOperation_first_done_witness :
  VideoStudio.pollOperation
    ((VideoStudio.Answered
        <$> [VideoStudio.mkOperation false None; VideoStudio.mkOperation false None])
       ++ VideoStudio.Answered (VideoStudio.mkOperation true (Some "https://video"%string))
          :: [VideoStudio.Thrown])
    (VideoStudio.mkOperation false None)
  = VideoStudio.Finished (VideoStudio.mkOperation true (Some "https://video"%string)) 3.
Proof.
  exact (proj1 (pollOperation_first_done
                  (VideoStudio.mkOperation false None)
                  (VideoStudio.mkOperation true (Some "https://video"%string))
                  [VideoStudio.mkOperation false None; VideoStudio.mkOperation false None]
                  [VideoStudio.Thrown]
                  eq_refl ltac:(repeat constructor) eq_refl)).
Defined.

(** ** The key gate *)

Section KeyGate.



End KeyGate.


(** ** The cursor *)

Section Cursor.

Lemma enqueue_cursor_le (now : Q) (b : AudioBuffer) (sc : Scheduler) :
  (nextStartTimeRef sc <= nextStartTimeRef (enqueue now b sc))%Q.
Proof.
  simpl. apply Qle_trans with (Math_max (nextStartTimeRef sc) now + 0)%Q.
  - rewrite Qplus_0_r. apply Math_max_ge_l.
  - apply Qplus_le_compat; [apply Qle_refl | apply duration_nonneg].
Qed.

Lemma onmessage_cursor_le (now : Q) (m : ServerMessage) (s : State) :
  interrupted m = false ->
  (nextStartTimeRef (sched s) <= nextStartTimeRef (sched (fst (onmessage now m s))))%Q.
Proof.
  intros Hi. destruct (before_audio m s) as (Hs & _).
  unfold onmessage, interruptedPart. rewrite Hi.
  destruct (modelTurn m) as [| |d]; simpl; rewrite ?Hs; try apply Qle_refl.
  destruct (truthy d); [destruct (decodeChunk d) as [b|]|]; simpl; rewrite Hs.
  - apply (enqueue_cursor_le now b (sched s)).
  - apply Math_max_ge_l.
  - apply Qle_refl.
Qed.

Lemma step_cursor_le (s : State) (e : Event) :
  notInterrupting e = true ->
  (nextStartTimeRef (sched s) <= nextStartTimeRef (sched (step s e)))%Q.
Proof.
  intros He. destruct e as [env| |now m| | |id]; unfold step.
  - destruct (startSession_frame env s) as (_ & -> & _). apply Qle_refl.
  - destruct (stopSession_frame s) as (_ & -> & _). apply Qle_refl.
  - apply onmessage_cursor_le. simpl in He. now apply negb_true_iff in He.
  - unfold onerror.
    destruct (stopSession_frame (with_ui (setError (Some "Connection lost. Please try again."%string)) s))
      as (_ & -> & _).
    apply Qle_refl.
  - unfold onclose. destruct (stopSession_frame s) as (_ & -> & _). apply Qle_refl.
  - apply Qle_refl.
Qed.

End Cursor.

(** X19.  The cursor never moves back except by an interruption: through
    any sequence of events none of which is a message with the
    interruption signal (starts, stops, errors, closes, ends of sources
    and all other messages, also those whose chunk fails to decode), the
    cursor at the end is at least the cursor at the beginning. *)
Theorem cursor_monotone (es : list Event) (s : State) :
  forallb notInterrupting es = true ->
  (nextStartTimeRef (sched s) <= nextStartTimeRef (sched (run es s)))%Q.
Proof.
  revert s. induction es as [|e es IH]; intros s H; [apply Qle_refl|].
  simpl in H. apply andb_true_iff in H as [He Hes].
  change (run (e :: es) s) with (run es (step s e)).
  apply Qle_trans with (nextStartTimeRef (sched (step s e))).
  - now apply step_cursor_le.
  - now apply IH.
Qed.

Lemma cursor_monotone_witness :
  (nextStartTimeRef staleScheduler
     <= nextStartTimeRef
          (sched (run [Message 9 (audioChunk oddBytes); Stop; Start workingEnv;
                       Message 1 turnCompleteSignal]
                      (with_sched (fun _ => staleScheduler) (activeSession true)))))%Q.
Proof.
  exact (cursor_monotone [Message 9 (audioChunk oddBytes); Stop; Start workingEnv;
                          Message 1 turnCompleteSignal]
           (with_sched (fun _ => staleScheduler) (activeSession true)) eq_refl).
Defined.
